(** * Verification of the span/segment conversion of [finetune/utils.py]

    Shallow embedding of [iob_precedes], [finetune_to_indico_sequence]
    (segments to spans) and [indico_to_finetune_sequence] (spans to
    segments), one document at a time.  Python strings are lists of
    characters, Python integers are [Z], and every Python exception the
    code can raise on the modelled path is an [Err] of the result monad. *)

From Stdlib Require Import ZArith List Bool Ascii String Lia Permutation Sorted.
Import ListNotations.
Open Scope Z_scope.

(** ** Python values *)

Definition str := list ascii.

(** Literal helper: a Rocq string literal as a Python [str]. *)
Definition lit (x : string) : str := list_ascii_of_string x.

Inductive py_exc := IndexError | KeyError | ValueError | TypeError | AttributeError.

Inductive res (A : Type) : Type :=
| Ok : A -> res A
| Err : py_exc -> res A.
Arguments Ok {A} _.
Arguments Err {A} _.

Definition bind {A B : Type} (m : res A) (k : A -> res B) : res B :=
  match m with Ok a => k a | Err e => Err e end.

Notation "x <- m ;; k" := (bind m (fun x => k))
  (at level 61, m at next level, right associativity).

Definition str_eqb (a b : str) : bool :=
  if list_eq_dec ascii_dec a b then true else false.

Definition py_len {A} (l : list A) : Z := Z.of_nat (List.length l).

(** Bound normalisation of a slice index [l[i:...]]. *)
Definition slice_idx (n i : Z) : Z :=
  if i <? 0 then Z.max 0 (i + n) else Z.min i n.

(** [l[a:b]] *)
Definition py_slice {A} (l : list A) (a b : Z) : list A :=
  let a' := slice_idx (py_len l) a in
  let b' := slice_idx (py_len l) b in
  firstn (Z.to_nat (b' - a')) (skipn (Z.to_nat a') l).

(** [l[a:]] *)
Definition py_slice_from {A} (l : list A) (a : Z) : list A :=
  py_slice l a (py_len l).

(** [l[:b]] *)
Definition py_slice_to {A} (l : list A) (b : Z) : list A :=
  py_slice l 0 b.

(** [l[i]] *)
Definition py_get {A} (l : list A) (i : Z) : res A :=
  let n := py_len l in
  let i' := if i <? 0 then i + n else i in
  if (0 <=? i') && (i' <? n) then
    match nth_error l (Z.to_nat i') with Some x => Ok x | None => Err IndexError end
  else Err IndexError.

(** [l[i] = x] *)
Definition py_set {A} (l : list A) (i : Z) (x : A) : res (list A) :=
  let n := py_len l in
  let i' := if i <? 0 then i + n else i in
  if (0 <=? i') && (i' <? n) then
    Ok (firstn (Z.to_nat i') l ++ x :: skipn (S (Z.to_nat i')) l)
  else Err IndexError.

(** [l.insert(i, x)] *)
Definition py_insert {A} (l : list A) (i : Z) (x : A) : list A :=
  let n := py_len l in
  let i' := if i <? 0 then Z.max 0 (i + n) else Z.min i n in
  firstn (Z.to_nat i') l ++ x :: skipn (Z.to_nat i') l.

Fixpoint prefix (p l : str) : bool :=
  match p, l with
  | [], _ => true
  | c :: p', d :: l' => Ascii.eqb c d && prefix p' l'
  | _ :: _, [] => false
  end.

Fixpoint find_aux (needle l : str) (pos : Z) : Z :=
  if prefix needle l then pos
  else match l with
       | [] => -1
       | _ :: l' => find_aux needle l' (pos + 1)
       end.

(** [hay.find(needle, start)] *)
Definition py_find (hay needle : str) (start : Z) : Z :=
  let n := py_len hay in
  let st := if start <? 0 then Z.max 0 (start + n) else start in
  if n <? st then -1 else find_aux needle (skipn (Z.to_nat st) hay) st.

(** [sub in l] for strings. *)
Definition py_in (sub l : str) : bool := 0 <=? py_find l sub 0.

(** [str.isspace] on one character (ASCII range). *)
Definition py_isspace (c : ascii) : bool :=
  let n := nat_of_ascii c in
  ((9 <=? n) && (n <=? 13))%nat || ((28 <=? n) && (n <=? 32))%nat.

Fixpoint lstrip (l : str) : str :=
  match l with
  | c :: l' => if py_isspace c then lstrip l' else l
  | [] => []
  end.

(** [l.strip()] *)
Definition py_strip (l : str) : str := rev (lstrip (rev (lstrip l))).

Definition dash : ascii := "-"%char.

(** ["-" in l] *)
Definition has_dash (l : str) : bool := existsb (Ascii.eqb dash) l.

(** [l.split("-", 1)]: [None] when the result has a single element. *)
Fixpoint split_dash (l : str) : option (str * str) :=
  match l with
  | [] => None
  | c :: l' =>
      if Ascii.eqb c dash then Some ([], l')
      else match split_dash l' with
           | Some (a, b) => Some (c :: a, b)
           | None => None
           end
  end.

(** [l.startswith(p)] *)
Definition py_startswith (l p : str) : bool := prefix p l.

(** ** IOB join policy *)

(** [is_iob_tagged] *)
Definition is_iob_tagged (label : str) : bool := py_startswith label (lit "IE-").

(** The dictionary [mapping] of [iob_precedes]: a missing key raises [KeyError]. *)
Definition iob_mapping (loc : str) : res str :=
  if str_eqb loc (lit "B") then Ok (lit "IE-")
  else if str_eqb loc (lit "I") then Ok (lit "IE-")
  else if str_eqb loc (lit "E") then Ok []
  else Err KeyError.

(** [iob_precedes left right pad_token]; [left] is [None] or a label.
    The Python function can fall off its end (returning [None]): this is
    the inner [None]. The [try] only catches the [ValueError] of the
    tuple unpacking of a [split] that found no separator. *)
Definition iob_precedes (left : option str) (right pad_token : str)
  : res (option (bool * str)) :=
  if match left with Some l => str_eqb l right | None => false end
     && str_eqb right pad_token
  then Ok (Some (true, pad_token))
  else
    match split_dash right with
    | None => Ok (Some (false, right))
    | Some (right_loc, right_label) =>
        match left with
        | None => m <- iob_mapping right_loc ;; Ok (Some (false, m ++ right_label))
        | Some l =>
            if negb (has_dash l) then
              m <- iob_mapping right_loc ;; Ok (Some (false, m ++ right_label))
            else
              match split_dash l with
              | None => Ok (Some (false, right))
              | Some (left_loc, left_label) =>
                  if negb (str_eqb left_label right_label) then
                    m <- iob_mapping right_loc ;; Ok (Some (false, m ++ right_label))
                  else if py_in right_label left_label then
                    m <- iob_mapping right_loc ;; Ok (Some (true, m ++ right_label))
                  else Ok None
              end
        end
    end.

(** ** Stable sort by a key ([sorted(..., key=...)]) *)

Section SortBy.
Variable A : Type.
Variable key : A -> Z.

Fixpoint insert_by (x : A) (l : list A) : list A :=
  match l with
  | [] => [x]
  | y :: l' => if key x <=? key y then x :: l else y :: insert_by x l'
  end.

Fixpoint sort_by (l : list A) : list A :=
  match l with
  | [] => []
  | x :: l' => insert_by x (sort_by l')
  end.
End SortBy.
Arguments insert_by {A} key x l.
Arguments sort_by {A} key l.

(** ** Segments to spans: [finetune_to_indico_sequence] *)

(** A segment label: a single label, or a [tuple] of labels (multi-label). *)
Inductive rawlabel := Single (l : str) | Multi (ls : list str).

(** An output annotation: the dict [{start, end, label, text}] (the
    optional [confidence] entry is not modelled: [probs] is [None]). *)
Record ann := mk_ann { a_start : Z; a_end : Z; a_label : str; a_text : str }.

Definition triple_eqb (x y : Z * Z * str) : bool :=
  let '(a, b, c) := x in let '(a', b', c') := y in
  (a =? a') && (b =? b') && str_eqb c c'.

Definition triple_mem (x : Z * Z * str) (l : list (Z * Z * str)) : bool :=
  existsb (triple_eqb x) l.

(** The per-document loop state: [raw_annotation_start], [start_idx],
    [end_idx], [doc_annotations], [annotation_ranges] and the warnings
    emitted so far (the searched text of each failed lookup). *)
Record f2i_state := mk_f2i {
  cursor : Z; start_idx : Z; end_idx : Z;
  doc_anns : list ann; ranges : list (Z * Z * str); warns : list str }.

(** [new_label or label] *)
Definition py_or (nl : option str) (label : str) : str :=
  match nl with Some ((_ :: _) as x) => x | _ => label end.

Section F2I.
Variable raw_text : str.
(** [NLP(raw_text)] as (start, end) character offsets. *)
Variable tokens : list (Z * Z).
Variable none_value : str.
Variables subtoken_predictions iob : bool.

Definition token_starts : list Z := map fst tokens.
Definition token_ends : list Z := map snd tokens.
Definition n_tokens : Z := py_len tokens.

(** [join, new_label = ...] in the loop over [doc_annotations]. *)
Definition join_of (item_label label : str) : res (bool * str) :=
  if iob then
    r <- iob_precedes (Some item_label) label none_value ;;
    match r with Some p => Ok p | None => Err TypeError end
  else Ok (str_eqb item_label label, label).

(** [for i, item in enumerate(doc_annotations): ...]: returns the last
    [new_label], the (possibly moved) [raw_annotation_start] and
    [doc_annotations] after the [pop(i)]. *)
Fixpoint scan (label : str) (items : list ann) (nl : option str) (ras : Z)
  : res (option str * Z * list ann) :=
  match items with
  | [] => Ok (nl, ras, [])
  | item :: rest =>
      p <- join_of (a_label item) label ;;
      let '(join, new_label) := p in
      if join && (ras - a_end item <=? 1) then Ok (Some new_label, a_start item, rest)
      else
        r <- scan label rest (Some new_label) ras ;;
        let '(nl', ras', rest') := r in
        Ok (nl', ras', item :: rest')
  end.

(** [while start_idx < n_tokens and annotation_start >= token_starts[start_idx]]
    (the fuel is the exact number of remaining iterations). *)
Fixpoint adv_start (fuel : nat) (idx ann_start : Z) : res Z :=
  match fuel with
  | O => Ok idx
  | S f =>
      if idx <? n_tokens then
        t <- py_get token_starts idx ;;
        if t <=? ann_start then adv_start f (idx + 1) ann_start else Ok idx
      else Ok idx
  end.

(** [while end_idx < (n_tokens - 1) and annotation_end > token_ends[end_idx]] *)
Fixpoint adv_end (fuel : nat) (idx ann_end : Z) : res Z :=
  match fuel with
  | O => Ok idx
  | S f =>
      if idx <? n_tokens - 1 then
        t <- py_get token_ends idx ;;
        if t <? ann_end then adv_end f (idx + 1) ann_end else Ok idx
      else Ok idx
  end.

(** Rounding to the nearest full tokens: new [start_idx], [end_idx],
    [annotation_start], [annotation_end]. *)
Definition round_tokens (si ei as_ ae : Z) : res (Z * Z * Z * Z) :=
  si' <- adv_start (Z.to_nat (n_tokens - si)) si as_ ;;
  as' <- py_get token_starts (si' - 1) ;;
  ei' <- adv_end (Z.to_nat (n_tokens - 1 - ei)) ei ae ;;
  ae' <- py_get token_ends ei' ;;
  Ok (si', ei', as', ae').

(** The body of [for label in label_list] for segment [sub_str]. *)
Definition label_step (multi_label : bool) (sub_str : str) (st : f2i_state) (label : str)
  : res f2i_state :=
  let stripped := py_strip sub_str in
  let ras0 := py_find raw_text stripped (cursor st) in
  let rae := ras0 + py_len stripped in
  let not_none := negb (str_eqb label none_value) in
  r <- (if not_none then scan label (doc_anns st) None ras0
        else Ok (None, ras0, doc_anns st)) ;;
  let '(nl0, ras, anns) := r in
  nl <- (if iob && (Nat.eqb (List.length anns) 0) then
           p <- iob_precedes None label none_value ;;
           match p with Some (_, x) => Ok (Some x) | None => Err TypeError end
         else Ok nl0) ;;
  if ras =? -1 then
    (* warnings.warn(...); continue *)
    Ok (mk_f2i ras (start_idx st) (end_idx st) anns (ranges st) (warns st ++ [stripped]))
  else
    r2 <- (if negb subtoken_predictions && (negb iob || negb (is_iob_tagged (py_or nl label)))
           then
             let si := if multi_label then 0 else start_idx st in
             let ei := if multi_label then 0 else end_idx st in
             if not_none then round_tokens si ei ras rae else Ok (si, ei, ras, rae)
           else Ok (start_idx st, end_idx st, ras, rae)) ;;
    let '(si, ei, as_, ae) := r2 in
    let txt := py_slice raw_text as_ ae in
    if not_none then
      if triple_mem (as_, ae, label) (ranges st)
      then Ok (mk_f2i ras si ei anns (ranges st) (warns st))
      else Ok (mk_f2i ras si ei (anns ++ [mk_ann as_ ae (py_or nl label) txt])
                      (ranges st ++ [(as_, ae, label)]) (warns st))
    else Ok (mk_f2i ras si ei anns (ranges st) (warns st)).

Fixpoint labels_loop (multi_label : bool) (sub_str : str) (st : f2i_state) (ls : list str)
  : res f2i_state :=
  match ls with
  | [] => Ok st
  | l :: ls' => st' <- label_step multi_label sub_str st l ;; labels_loop multi_label sub_str st' ls'
  end.

Definition seg_step (st : f2i_state) (seg : str * rawlabel) : res f2i_state :=
  let '(sub_str, raw_label) := seg in
  match raw_label with
  | Single l => labels_loop false sub_str st [l]
  | Multi ls => labels_loop true sub_str st ls
  end.

Fixpoint segs_loop (st : f2i_state) (segs : list (str * rawlabel)) : res f2i_state :=
  match segs with
  | [] => Ok st
  | seg :: segs' => st' <- seg_step st seg ;; segs_loop st' segs'
  end.

(** [doc["label"].split("-", 1)[-1]] for an [IE-] tagged label. *)
Definition strip_ie (a : ann) : ann :=
  if is_iob_tagged (a_label a) then
    match split_dash (a_label a) with
    | Some (_, b) => mk_ann (a_start a) (a_end a) b (a_text a)
    | None => a
    end
  else a.

Definition init_f2i : f2i_state := mk_f2i 0 0 0 [] [] [].

(** One document of [finetune_to_indico_sequence]: the sorted annotations
    and the warnings emitted. *)
Definition finetune_to_indico_doc (doc_seq : list str) (label_seq : list rawlabel)
  : res (list ann * list str) :=
  st <- segs_loop init_f2i (combine doc_seq label_seq) ;;
  let anns := if iob then map strip_ie (doc_anns st) else doc_anns st in
  Ok (sort_by a_start anns, warns st).
End F2I.

Definition triple (a : ann) : Z * Z * str := (a_start a, a_end a, a_label a).

(** ** Spans to segments: [indico_to_finetune_sequence] *)

(** An input annotation: [{start, end, label}] and the optional [text]. *)
Record iann := mk_iann { i_start : Z; i_end : Z; i_label : str; i_text : option str }.

(** A segment label: [label] ([multi_label = False]) or [[label, ...]]. *)
Inductive seglab := One (l : str) | Many (ls : list str).

(** [last_loc], [doc_subseqs], [doc_labels]. *)
Record i2f_state := mk_i2f { last_loc : Z; subseqs : list str; dlabels : list seglab }.

Section I2F.
Variable text : str.
(** [NLP(text)] as (start, end) character offsets. *)
Variable tokens : list (Z * Z).
Variable multi_label : bool.
Variable none_value : str.
Variables subtoken_labels iob : bool.
(** [ENCODER._encode([t]).char_locs[0]]: the sub-token end offsets of [t]. *)
Variable encoder : str -> list Z.

(** IOB expansion of one annotation. *)
Definition iob_expand_one (a : iann) : list iann :=
  let start := i_start a in
  let label := i_label a in
  if str_eqb label none_value then [a]
  else
    let sub_text := match i_text a with
                    | Some ((_ :: _) as t) => t
                    | _ => py_slice text start (i_end a)
                    end in
    let start_char_locs := 0 :: py_slice_to (encoder sub_text) (-1) in
    let n := List.length start_char_locs in
    let B_locs := if Nat.eqb n 1 then (nth 0 start_char_locs 0, py_len sub_text)
                  else (nth 0 start_char_locs 0, nth 1 start_char_locs 0) in
    let E_locs := (last start_char_locs 0, py_len sub_text) in
    [mk_iann (start + fst B_locs) (start + snd B_locs) (lit "B-" ++ label)
             (Some (py_slice sub_text (fst B_locs) (snd B_locs)))]
    ++ (if (1 <? n)%nat then
          [mk_iann (start + fst E_locs) (start + snd E_locs) (lit "E-" ++ label)
                   (Some (py_slice sub_text (fst E_locs) (snd E_locs)))]
        else [])
    ++ (if (2 <? n)%nat then
          [mk_iann (start + snd B_locs) (start + fst E_locs) (lit "I-" ++ label)
                   (Some (py_slice sub_text (snd B_locs) (fst E_locs)))]
        else []).

Definition i_token_starts : list Z := map fst tokens.
Definition i_token_ends : list Z := map snd tokens.

Definition zmem (x : Z) (l : list Z) : bool := existsb (Z.eqb x) l.

(** [while start > 0 and start not in token_starts: start -= 1] *)
Fixpoint round_down (fuel : nat) (start : Z) : Z :=
  match fuel with
  | O => start
  | S f => if (0 <? start) && negb (zmem start i_token_starts)
           then round_down f (start - 1) else start
  end.

(** [while end < len(text) and end not in token_ends: end += 1] *)
Fixpoint round_up (fuel : nat) (end_ : Z) : Z :=
  match fuel with
  | O => end_
  | S f => if (end_ <? py_len text) && negb (zmem end_ i_token_ends)
           then round_up f (end_ + 1) else end_
  end.

Definition filler : seglab := if multi_label then Many [none_value] else One none_value.

(** [doc_labels[j].append(label)] *)
Definition seglab_append (x : seglab) (l : str) : res seglab :=
  match x with Many ls => Ok (Many (ls ++ [l])) | One _ => Err AttributeError end.

(** [doc_labels[j][:] + [label]] *)
Definition seglab_plus (x : seglab) (l : str) : res seglab :=
  match x with Many ls => Ok (Many (ls ++ [l])) | One _ => Err TypeError end.

(** [while split_dist >= len(doc_subseqs[j]): ...]. The fuel
    [Z.to_nat (j + len(doc_subseqs)) + 1] runs out only once
    [j < -len(doc_subseqs)], where [doc_subseqs[j]] raises [IndexError]. *)
Fixpoint walk (fuel : nat) (subs : list str) (labs : list seglab) (label : str)
  (split_dist j : Z) : res (list seglab * Z * Z) :=
  match fuel with
  | O => Err IndexError
  | S f =>
      sj <- py_get subs j ;;
      if py_len sj <=? split_dist then
        lj <- py_get labs j ;;
        lj' <- seglab_append lj label ;;
        labs' <- py_set labs j lj' ;;
        walk f subs labs' label (split_dist - py_len sj) (j - 1)
      else Ok (labs, split_dist, j)
  end.

(** [start] and [end] of an annotation, rounded to the nearest tokens
    unless [subtoken_labels] or [iob]. *)
Definition ann_bounds (a : iann) : Z * Z :=
  if negb subtoken_labels && negb iob && negb (str_eqb (i_label a) none_value)
  then (round_down (Z.to_nat (i_start a)) (i_start a),
        round_up (Z.to_nat (py_len text - i_end a)) (i_end a))
  else (i_start a, i_end a).

(** The body of [for i, annotation in enumerate(label_seq)] up to the
    overlap test: token rounding, the filler before the annotation and the
    split of the tail of the last segment. Returns [doc_subseqs],
    [doc_labels], [j], [skip_end], [start] and [end]. *)
Definition ann_head (st : i2f_state) (a : iann)
  : res (list str * list seglab * Z * Z * Z * Z) :=
  let '(start, end_) := ann_bounds a in
  let ll := last_loc st in
  let '(subs, labs) :=
    if ll <? start then (subseqs st ++ [py_slice text ll start], dlabels st ++ [filler])
    else (subseqs st, dlabels st) in
  let j := py_len labs - 1 in
  let split_dist := ll - end_ in
  r <- (if 0 <? split_dist then
          last_ <- py_get subs (-1) ;;
          r1 <- (if negb (py_len last_ =? split_dist) then
                   let dual := py_slice_from last_ (- split_dist) in
                   subs1 <- py_set subs (-1) (py_slice_to last_ (- split_dist)) ;;
                   lastlab <- py_get labs (-1) ;;
                   Ok (subs1 ++ [dual], labs ++ [lastlab], j - 2)
                 else Ok (subs, labs, j - 1)) ;;
          let '(subs1, labs1, j1) := r1 in
          last1 <- py_get subs1 (-1) ;;
          Ok (subs1, labs1, j1, py_len last1)
        else Ok (subs, labs, j, 0)) ;;
  let '(subs, labs, j, skip_end) := r in
  Ok (subs, labs, j, skip_end, start, end_).

(** The whole body of the loop over the sorted annotations. *)
Definition ann_step (st : i2f_state) (a : iann) : res i2f_state :=
  let label := i_label a in
  let ll := last_loc st in
  h <- ann_head st a ;;
  let '(subs, labs, j, skip_end, start, end_) := h in
  r <- (if start <? ll - skip_end then
          if negb multi_label then Err ValueError
          else
            let sd := ll - start - skip_end in
            w <- walk (Z.to_nat (j + py_len subs) + 1) subs labs label sd j ;;
            let '(labs, sd, j) := w in
            r2 <- (if 0 <? sd then
                     sj <- py_get subs j ;;
                     let dual := py_slice_from sj (- sd) in
                     subs' <- py_set subs j (py_slice_to sj (- sd)) ;;
                     lj <- py_get labs j ;;
                     lj' <- seglab_plus lj label ;;
                     Ok (py_insert subs' (j + 1) dual, py_insert labs (j + 1) lj')
                   else Ok (subs, labs)) ;;
            let '(subs, labs) := r2 in
            atext <- match i_text a with
                     | Some t => Ok (Some (py_slice_from t (ll - end_)))
                     | None => Err TypeError
                     end ;;
            Ok (subs, labs, ll, atext)
        else Ok (subs, labs, start, i_text a)) ;;
  let '(subs, labs, start, atext) := r in
  if end_ <=? start then Ok (mk_i2f (Z.max start end_) subs labs)
  else
    let piece := py_slice text start end_ in
    let subs := subs ++ [piece] in
    let labs := labs ++ [if multi_label then Many [label] else One label] in
    match atext with
    | Some t => if negb iob && negb (str_eqb piece t) then Err ValueError
                else Ok (mk_i2f end_ subs labs)
    | None => Ok (mk_i2f end_ subs labs)
    end.

Fixpoint ann_loop (st : i2f_state) (l : list iann) : res i2f_state :=
  match l with
  | [] => Ok st
  | a :: l' => st' <- ann_step st a ;; ann_loop st' l'
  end.

(** The IOB expansion (when [iob]) and [sorted(label_seq, key=start)]. *)
Definition prepared (label_seq : list iann) : list iann :=
  sort_by i_start (if iob then flat_map iob_expand_one label_seq else label_seq).

(** One document of [indico_to_finetune_sequence]. *)
Definition indico_to_finetune_doc (label_seq : list iann) : res (list str * list seglab) :=
  st <- ann_loop (mk_i2f 0 [] []) (prepared label_seq) ;;
  if negb (last_loc st =? py_len text) then
    Ok (subseqs st ++ [py_slice_from text (last_loc st)], dlabels st ++ [filler])
  else Ok (subseqs st, dlabels st).
End I2F.

Definition no_encoder (_ : str) : list Z := [].
Definition PAD : str := lit "<PAD>".

(** ** The other functions of [utils.py] *)

(** [truncate_text(text, max_chars)] *)
Definition truncate_text (text : str) (max_chars : Z) : str :=
  if max_chars <? py_len text then py_slice_to text max_chars ++ lit "..." else text.

(** [flatten(outer)]: [[el for inner in outer for el in inner]] *)
Definition flatten {A} (outer : list (list A)) : list A :=
  flat_map (fun inner => map (fun el => el) inner) outer.

(** [remove_none(l)]: [[e for e in l if e is not None]] *)
Definition remove_none {A} (l : list (option A)) : list (option A) :=
  filter (fun e => match e with None => false | Some _ => true end) l.

(** One step of [zip] over the rows of [l]: the next item of every row, or [None] as soon
    as one row is exhausted. *)
Fixpoint zip_step {A} (rows : list (list A)) : option (list A * list (list A)) :=
  match rows with
  | [] => Some ([], [])
  | [] :: _ => None
  | (x :: r) :: rows' =>
      match zip_step rows' with
      | Some (xs, rs) => Some (x :: xs, r :: rs)
      | None => None
      end
  end.

(** [zip] stops after at most as many steps as the first row has items:
    the fuel is exact. *)
Fixpoint zip_rows {A} (fuel : nat) (rows : list (list A)) : list (list A) :=
  match fuel with
  | O => []
  | S f => match zip_step rows with
           | Some (xs, rs) => xs :: zip_rows f rs
           | None => []
           end
  end.

(** [list_transpose(l)]: the rows of [zip] applied to the rows of [l],
    turned into lists; [zip()] with no argument is empty. *)
Definition list_transpose {A} (l : list (list A)) : list (list A) :=
  match l with
  | [] => []
  | r :: _ => zip_rows (List.length r) l
  end.

(** [range(i, stop, step)] for [step > 0]; it has at most [stop - i]
    items, so a fuel of [Z.to_nat (stop - i)] is exact. *)
Fixpoint range_pos (fuel : nat) (i stop step : Z) : list Z :=
  match fuel with
  | O => []
  | S f => if i <? stop then i :: range_pos f (i + step) stop step else []
  end.

(** The bound [n] of [iter_data]; [max_batches = None] is [float("inf")],
    for which [min(n, inf * n_batch)] is [n]. *)
Definition iter_count (n0 n_batch : Z) (truncate : bool) (max_batches : option Z) : Z :=
  let n := if truncate then (n0 / n_batch) * n_batch else n0 in
  match max_batches with None => n | Some m => Z.min n (m * n_batch) end.

(** A value yielded by [iter_data]: the slice [datas[0][i:i+n_batch]], or
    the generator expression [(d[i:i+n_batch] for d in datas)], which
    reads [i] only when it is consumed. *)
Inductive yielded (A : Type) := Slice (b : list A) | Gen.
Arguments Slice {A} b.
Arguments Gen {A}.

(** The loop of [iter_data]; the flag tells whether the loop ended on
    [raise StopIteration] (the guard [n_batches >= max_batches]). *)
Fixpoint iter_loop {A} (d0 : list A) (single : bool) (nb : Z) (max_batches : option Z)
  (n_batches : Z) (is : list Z) : list (yielded A) * bool :=
  match is with
  | [] => ([], false)
  | i :: is' =>
      if match max_batches with Some m => m <=? n_batches | None => false end then ([], true)
      else
        let '(ys, stop) := iter_loop d0 single nb max_batches (n_batches + 1) is' in
        ((if single then Slice (py_slice d0 i (i + nb)) else Gen) :: ys, stop)
  end.

(** [iter_data( *datas, n_batch, truncate, max_batches)] for [n_batch >= 1]
    (the progress bar [tqdm] passes the range through); the items it
    yields and whether the guard stopped it. *)
Definition iter_data {A} (datas : list (list A)) (n_batch : positive) (truncate : bool)
  (max_batches : option Z) : res (list (yielded A) * bool) :=
  d0 <- py_get datas 0 ;;
  let nb := Z.pos n_batch in
  let n := iter_count (py_len d0) nb truncate max_batches in
  Ok (iter_loop d0 (Nat.eqb (List.length datas) 1) nb max_batches 0 (range_pos (Z.to_nat n) 0 n nb)).

Fixpoint i2f_docs (nlp : str -> list (Z * Z)) (multi_label : bool) (none_value : str)
  (subtoken_labels iob : bool) (encoder : str -> list Z) (docs : list (str * list iann))
  : res (list (list str) * list (list seglab)) :=
  match docs with
  | [] => Ok ([], [])
  | (text, label_seq) :: rest =>
      r <- indico_to_finetune_doc text (nlp text) multi_label none_value subtoken_labels iob encoder label_seq ;;
      let '(doc_subseqs, doc_labels) := r in
      r' <- i2f_docs nlp multi_label none_value subtoken_labels iob encoder rest ;;
      let '(all_subseqs, all_labels) := r' in
      Ok (doc_subseqs :: all_subseqs, doc_labels :: all_labels)
  end.

(** [indico_to_finetune_sequence(texts, labels, ...)]; [labels = None]
    is [[[]] * len(texts)]. *)
Definition indico_to_finetune_sequence (nlp : str -> list (Z * Z)) (encoder : str -> list Z)
  (texts : list str) (labels : option (list (list iann))) (multi_label : bool) (none_value : str)
  (subtoken_labels iob : bool) : res (list (list str) * list (list seglab)) :=
  let labels := match labels with None => repeat [] (List.length texts) | Some l => l end in
  i2f_docs nlp multi_label none_value subtoken_labels iob encoder (combine texts labels).

Fixpoint f2i_docs (nlp : str -> list (Z * Z)) (none_value : str) (subtoken_predictions iob : bool)
  (docs : list (str * list str * list rawlabel)) : res (list (list ann)) :=
  match docs with
  | [] => Ok []
  | (raw_text, doc_seq, label_seq) :: rest =>
      r <- finetune_to_indico_doc raw_text (nlp raw_text) none_value subtoken_predictions iob doc_seq label_seq ;;
      let '(doc_annotations, _) := r in
      annotations <- f2i_docs nlp none_value subtoken_predictions iob rest ;;
      Ok (doc_annotations :: annotations)
  end.

(** [finetune_to_indico_sequence(raw_texts, subseqs, labels, probs=None, ...)];
    the warnings it emits are not part of the result. *)
Definition finetune_to_indico_sequence (nlp : str -> list (Z * Z)) (raw_texts : list str)
  (subseqs : list (list str)) (labels : list (list rawlabel)) (none_value : str)
  (subtoken_predictions iob : bool) : res (list str * list (list ann)) :=
  annotations <- f2i_docs nlp none_value subtoken_predictions iob
                   (combine (combine raw_texts subseqs) labels) ;;
  Ok (raw_texts, annotations).

(** * Auxiliary definitions of the proofs *)

Definition X : str := lit "X".
Definition Y : str := lit "Y".

(** The pieces emitted before the current annotation: the filler
    between [last_loc] and [s], if any. *)
Definition pre_pieces (text : str) (ml : bool) (none_value : str) (st : i2f_state) (s : Z) : list str * list seglab :=
  if last_loc st <? s
  then (subseqs st ++ [py_slice text (last_loc st) s], dlabels st ++ [filler ml none_value])
  else (subseqs st, dlabels st).

Definition ends_at (text : str) (tokens : list (Z*Z)) (w : Z) : bool :=
  (py_len text <=? w) || zmem w (i_token_ends tokens).

Definition filler_label (none_value : str) (r : rawlabel) : Prop :=
  match r with
  | Single l => l = none_value
  | Multi ls => Forall (fun l => l = none_value) ls
  end.

Definition to_ann (text : str) (a : iann) : ann :=
  mk_ann (i_start a) (i_end a) (i_label a) (py_slice text (i_start a) (i_end a)).

Fixpoint pieces (text none_value : str) (ll : Z) (As : list iann) : list (str * str) :=
  match As with
  | [] => []
  | a :: As' =>
      (if ll <? i_start a then [(py_slice text ll (i_start a), none_value)] else [])
      ++ (py_slice text (i_start a) (i_end a), i_label a) :: pieces text none_value (i_end a) As'
  end.

Fixpoint lastend (ll : Z) (As : list iann) : Z :=
  match As with [] => ll | a :: As' => lastend (i_end a) As' end.

Fixpoint chain (ll : Z) (As : list iann) : Prop :=
  match As with
  | [] => True
  | a :: As' => ll <= i_start a /\ i_start a < i_end a /\ chain (i_end a) As'
  end.

Definition mkseg (p : str * str) : str * rawlabel := (fst p, Single (snd p)).

Definition rt_good (text none_value : str) (a : iann) : Prop :=
  i_end a <= py_len text /\ i_label a <> none_value
  /\ py_strip (py_slice text (i_start a) (i_end a)) = py_slice text (i_start a) (i_end a)
  /\ (forall p, 0 <= p < i_start a ->
        py_slice text p (p + (i_end a - i_start a)) <> py_slice text (i_start a) (i_end a)).

Definition same_sep (a b : iann) : Prop := i_label a = i_label b -> i_end a + 1 < i_start b.

Definition rt_A : list iann := [mk_iann 0 2 X None; mk_iann 3 5 Y (Some (lit "cd"))].

Definition entry {A} (m : list (list A)) (i j : nat) : option A :=
  match nth_error m i with Some r => nth_error r j | None => None end.

(** [ceil(n / nb)] for [n > 0], and 0 otherwise. *)
Definition n_iters (n nb : Z) : nat := Z.to_nat ((Z.max 0 n + nb - 1) / nb).

Definition batch_slices {A} (d : list A) (nb : Z) (c : nat) : list (list A) :=
  map (fun k => py_slice d (Z.of_nat k * nb) (Z.of_nat k * nb + nb)) (seq 0 c).

(** [doc_annotations.pop(i)] happens at most once. *)
Definition pop_one {A} (l l' : list A) : Prop :=
  l' = l \/ exists pre x post, l = pre ++ x :: post /\ l' = pre ++ post.

(** What one [label_step] does to [doc_annotations] and
    [annotation_ranges]: at most one pop, then at most one new annotation,
    whose triple was not yet recorded. *)
Definition new_ann (raw_text : str) (tokens : list (Z * Z)) (none_value : str) (sp iob : bool)
  (label : str) (ranges : list (Z * Z * str)) (a : ann) : Prop :=
  triple_mem (a_start a, a_end a, label) ranges = false
  /\ label <> none_value
  /\ a_text a = py_slice raw_text (a_start a) (a_end a)
  /\ (iob = false -> a_label a = label)
  /\ (sp = false -> iob = false ->
      In (a_start a) (token_starts tokens) /\ In (a_end a) (token_ends tokens)).

Definition rawlabel_list (r : rawlabel) : list str :=
  match r with Single l => [l] | Multi ls => ls end.

Definition labels_of (label_seq : list rawlabel) : list str := flat_map rawlabel_list label_seq.

Definition f2i_inv (raw_text : str) (tokens : list (Z * Z)) (none_value : str) (sp iob : bool)
  (L : list str) (st : f2i_state) : Prop :=
  (forall a, In a (doc_anns st) ->
     a_text a = py_slice raw_text (a_start a) (a_end a)
     /\ (iob = false -> a_label a <> none_value /\ In (a_label a) L)
     /\ (sp = false -> iob = false ->
         In (a_start a) (token_starts tokens) /\ In (a_end a) (token_ends tokens)))
  /\ (iob = false -> NoDup (map triple (doc_anns st))
                     /\ forall a, In a (doc_anns st) -> triple_mem (triple a) (ranges st) = true).

(** A label of [doc_labels]: a string in single-label mode, a list in
    multi-label mode, made of the filler and of labels from [Ls]. *)
Definition lab_ok (ml : bool) (none_value : str) (Ls : list str) (x : seglab) : Prop :=
  match x with
  | One l => ml = false /\ (l = none_value \/ In l Ls)
  | Many ls => ml = true /\ Forall (fun s => s = none_value \/ In s Ls) ls
  end.

Definition i2f_inv (ml : bool) (none_value : str) (Ls : list str) (subs : list str) (labs : list seglab) : Prop :=
  List.length subs = List.length labs /\ Forall (lab_ok ml none_value Ls) labs.

Definition iob_tags : list str := [lit "B-"; lit "I-"; lit "E-"].

Definition i2f_labels (iob : bool) (label_seq : list iann) : list str :=
  if iob then flat_map (fun a => map (fun p => p ++ i_label a) iob_tags) label_seq
  else map i_label label_seq.

Definition mat23 : list (list Z) := [[1; 2; 3]; [4; 5; 6]].

Definition fox : str := lit "the quick fox".
Definition fox_tokens : list (Z * Z) := [(0, 3); (4, 9); (10, 13)].
Definition fox_segs : list str := [lit "the qu"; lit "ick fox"].
Definition fox_labels : list rawlabel := [Single (lit "A"); Multi [lit "A"; lit "B"]].
Definition fox_out : list ann :=
  [mk_ann 0 13 (lit "A") (lit "the quick fox"); mk_ann 4 13 (lit "B") (lit "quick fox")].

Definition abcd : str := lit "ab cd".
Definition abcd_tokens : list (Z * Z) := [(0, 2); (3, 5)].
Definition abcd_anns : list iann := [mk_iann 1 2 X None; mk_iann 3 5 Y None].

Definition per6 : iann := mk_iann 0 6 (lit "PER") None.

(** * Examples *)

Example iob_precedes_ex1 :
  iob_precedes (Some (lit "B-PER")) (lit "I-PER") (lit "<PAD>") = Ok (Some (true, lit "IE-PER")).
Proof. reflexivity. Qed.
Example iob_precedes_ex2 :
  iob_precedes (Some (lit "IE-PER")) (lit "E-PER") (lit "<PAD>") = Ok (Some (true, lit "PER")).
Proof. reflexivity. Qed.
Example iob_precedes_ex3 :
  iob_precedes None (lit "X-PER") (lit "<PAD>") = Err KeyError.
Proof. reflexivity. Qed.
Example py_find_ex : py_find (lit "abcab") (lit "ab") 1 = 3 /\ py_find (lit "ab") (lit "b") (-1) = 1
  /\ py_find (lit "ab") [] 2 = 2 /\ py_find (lit "ab") [] 3 = -1.
Proof. repeat split; reflexivity. Qed.
Example py_strip_ex : py_strip (lit " ab c  ") = lit "ab c".
Proof. reflexivity. Qed.

Example f2i_ex1 :
  match finetune_to_indico_doc (lit "the quick fox") [] (lit "<PAD>") true false
          [lit "the quick "; lit "fox"] [Single (lit "<PAD>"); Single (lit "animal")] with
  | Ok (anns, _) => map triple anns
  | Err _ => []
  end = [(10, 13, lit "animal")].
Proof. reflexivity. Qed.

Example i2f_ex1 :
  indico_to_finetune_doc (lit "abcdefghijklmnopqrst") [] true PAD true false no_encoder
    [mk_iann 0 10 (lit "X") (Some (lit "abcdefghij"));
     mk_iann 5 15 (lit "Y") (Some (lit "fghijklmno"))]
  = Ok ([lit "abcde"; lit "fghij"; lit "klmno"; lit "pqrst"],
        [Many [lit "X"]; Many [lit "X"; lit "Y"]; Many [lit "Y"]; Many [PAD]]).
Proof. reflexivity. Qed.

Example i2f_ex2 :
  indico_to_finetune_doc (lit "abcdefghijkl") [] true PAD true false no_encoder
    [mk_iann 1 11 (lit "X") (Some (lit "bcdefghijk"));
     mk_iann 3 5 (lit "Y") (Some (lit "de"))]
  = Ok ([lit "jk"; lit "a"; lit "bcde"; lit "fghi"; lit "l"],
        [Many [lit "X"; lit "Y"]; Many [PAD]; Many [lit "X"]; Many [lit "X"]; Many [PAD]]).
Proof. reflexivity. Qed.

Example i2f_ex3 :
  indico_to_finetune_doc (lit "abcdefghij") [] true PAD true false no_encoder
    [mk_iann 0 10 (lit "X") (Some (lit "abcdefghij"));
     mk_iann 2 4 (lit "Y") (Some (lit "cd"))]
  = Ok ([lit "ab"; lit "cd"; lit "efghij"],
        [Many [lit "X"]; Many [lit "X"; lit "Y"]; Many [lit "X"]]).
Proof. reflexivity. Qed.

(** * Properties *)

(** ** C1: coverage of the segments *)

(** C1 (code_bug): an annotation nested in the tail of a previous one that
    is not the first segment ([{1,11,X}], [{3,5,Y}] on a 12-character text,
    [multi_label], exact offsets) puts the piece ["jk"] at the front of the
    segment list: the segments do not concatenate back to the text. *)
Theorem C1_coverage_broken_nested_tail :
  indico_to_finetune_doc (lit "abcdefghijkl") [] true PAD true false no_encoder
    [mk_iann 1 11 X (Some (lit "bcdefghijk")); mk_iann 3 5 Y (Some (lit "de"))]
  = Ok ([lit "jk"; lit "a"; lit "bcde"; lit "fghi"; lit "l"],
        [Many [X; Y]; Many [PAD]; Many [X]; Many [X]; Many [PAD]])
  /\ List.concat [lit "jk"; lit "a"; lit "bcde"; lit "fghi"; lit "l"] <> lit "abcdefghijkl".
Proof. split; [vm_compute; reflexivity | vm_compute; discriminate]. Qed.

(** ** C2: round trip *)

(** C2 (counterexample): two adjacent annotations with the same label,
    [{0,1,X}] and [{1,2,X}] on ["ab"] (no multi-label, exact offsets, no
    IOB), come back as the single annotation [{0,2,X}]. *)
Theorem C2_roundtrip_merges_adjacent :
  indico_to_finetune_doc (lit "ab") [] false PAD true false no_encoder
    [mk_iann 0 1 X None; mk_iann 1 2 X None]
  = Ok ([lit "a"; lit "b"], [One X; One X])
  /\ finetune_to_indico_doc (lit "ab") [] PAD true false [lit "a"; lit "b"] [Single X; Single X]
     = Ok ([mk_ann 0 2 X (lit "ab")], [])
  /\ ~ Permutation [(0, 2, X)] [(0, 1, X); (1, 2, X)].
Proof.
  split; [vm_compute; reflexivity|split; [vm_compute; reflexivity|]].
  intro H. apply Permutation_length in H. discriminate.
Qed.

(** ** C4: two labels on the shared part of two overlapping annotations *)

(** C4 (code_bug): with [multi_label] and exact offsets, the annotations
    [{0,10,X}] and [{5,15,Y}] given without their optional [text] make the
    conversion raise [TypeError] ([annotation_text[last_loc - end:]] on
    [None]); with their [text] the segment [[5,10)] carries [[X, Y]]. *)
Theorem C4_overlap_without_text_raises :
  indico_to_finetune_doc (lit "abcdefghijklmno") [] true PAD true false no_encoder
    [mk_iann 0 10 X None; mk_iann 5 15 Y None] = Err TypeError
  /\ indico_to_finetune_doc (lit "abcdefghijklmno") [] true PAD true false no_encoder
       [mk_iann 0 10 X (Some (lit "abcdefghij")); mk_iann 5 15 Y (Some (lit "fghijklmno"))]
     = Ok ([lit "abcde"; lit "fghij"; lit "klmno"], [Many [X]; Many [X; Y]; Many [Y]]).
Proof. split; vm_compute; reflexivity. Qed.

(** ** C5: failed lookups in [finetune_to_indico_sequence] *)

(** C5 (code_bug): a segment ["zzz"] absent from ["ab"] following a
    segment ["a"] with the same label emits no warning: the merge loop runs
    before the [-1] test, takes over the start of the previous annotation
    and records [{0,2,X}] in its place. A failed lookup also sets the
    cursor to [-1], so that the next search starts at the last character:
    after the missing ["zz"] the segment ["a"] is not found either. *)
Theorem C5_lookup_miss_not_skipped :
  finetune_to_indico_doc (lit "ab") [] PAD true false [lit "a"; lit "zzz"] [Single X; Single X]
  = Ok ([mk_ann 0 2 X (lit "ab")], [])
  /\ finetune_to_indico_doc (lit "ab") [] PAD true false [lit "a"] [Single X]
     = Ok ([mk_ann 0 1 X (lit "a")], [])
  /\ finetune_to_indico_doc (lit "ab") [] PAD true false [lit "zz"; lit "a"] [Single PAD; Single X]
     = Ok ([], [lit "zz"; lit "a"]).
Proof. repeat split; vm_compute; reflexivity. Qed.

(** ** C6: documents without annotations *)

(** C6 (counterexample): the empty document yields no segment at all. *)
Theorem C6_empty_text_no_segment :
  indico_to_finetune_doc [] [] true PAD false false no_encoder [] = Ok ([], []).
Proof. vm_compute. reflexivity. Qed.

(** ** C9: no duplicate triples *)

(** C9 (code_bug): in IOB mode the duplicate test keys on the label
    before the policy mapping and before the final [IE-] strip: the labels
    [E-X] and [B-X] of one segment become [X] and [IE-X], then both [X],
    and the output holds [{0,1,X}] twice. *)
Theorem C9_iob_duplicate_triples :
  finetune_to_indico_doc (lit "ab") [] PAD true true [lit "a"; lit "b"]
    [Multi [lit "E-X"; lit "B-X"]; Single PAD]
  = Ok ([mk_ann 0 1 X (lit "a"); mk_ann 0 1 X (lit "a")], []).
Proof. vm_compute. reflexivity. Qed.

(** ** Lemmas on the string operations *)

Lemma str_eqb_true (a b : str) : str_eqb a b = true <-> a = b.
Proof. unfold str_eqb. destruct (list_eq_dec ascii_dec a b); split; congruence. Qed.

Lemma str_eqb_refl (a : str) : str_eqb a a = true.
Proof. apply str_eqb_true. reflexivity. Qed.

Lemma str_eqb_false (a b : str) : a <> b -> str_eqb a b = false.
Proof. intro H. destruct (str_eqb a b) eqn:E; [apply str_eqb_true in E; contradiction|reflexivity]. Qed.

Lemma prefix_refl (l : str) : prefix l l = true.
Proof. induction l as [|c l IH]; simpl; [reflexivity|rewrite Ascii.eqb_refl, IH; reflexivity]. Qed.

Lemma py_in_refl (l : str) : py_in l l = true.
Proof.
  unfold py_in, py_find. simpl.
  replace (py_len l <? 0) with false by (unfold py_len; symmetry; apply Z.ltb_ge; lia).
  destruct l; simpl; [reflexivity|]. rewrite Ascii.eqb_refl, prefix_refl. reflexivity.
Qed.

Lemma split_dash_cons (c : ascii) (l : str) :
  split_dash (c :: l) =
  if Ascii.eqb c dash then Some ([], l)
  else match split_dash l with Some (a, b) => Some (c :: a, b) | None => None end.
Proof. reflexivity. Qed.

Lemma has_dash_cons (c : ascii) (l : str) :
  has_dash (c :: l) = Ascii.eqb dash c || has_dash l.
Proof. reflexivity. Qed.

Lemma split_dash_app (loc base : str) :
  has_dash loc = false -> split_dash (loc ++ dash :: base) = Some (loc, base).
Proof.
  induction loc as [|c loc IH]; intro H.
  - reflexivity.
  - rewrite has_dash_cons in H. apply orb_false_iff in H as [H1 H2].
    rewrite <- app_comm_cons, split_dash_cons, Ascii.eqb_sym, H1, IH by exact H2. reflexivity.
Qed.

Lemma has_dash_app (loc base : str) : has_dash (loc ++ dash :: base) = true.
Proof.
  unfold has_dash. apply existsb_exists. exists dash.
  split; [apply in_or_app; right; left; reflexivity|apply Ascii.eqb_refl].
Qed.

Lemma split_dash_none (l : str) : has_dash l = false -> split_dash l = None.
Proof.
  induction l as [|c l IH]; intro H; [reflexivity|].
  rewrite has_dash_cons in H. apply orb_false_iff in H as [H1 H2].
  rewrite split_dash_cons, Ascii.eqb_sym, H1, IH by exact H2. reflexivity.
Qed.

Lemma split_dash_some (l : str) :
  has_dash l = true -> exists a b, split_dash l = Some (a, b).
Proof.
  induction l as [|c l IH]; intro H; [discriminate|].
  rewrite has_dash_cons in H. rewrite split_dash_cons, Ascii.eqb_sym.
  destruct (Ascii.eqb dash c); [eexists; eexists; reflexivity|].
  destruct (IH H) as [a [b E]]. rewrite E. eexists; eexists; reflexivity.
Qed.

Lemma iob_mapping_BIE (loc : str) :
  loc = lit "B" \/ loc = lit "I" \/ loc = lit "E" ->
  iob_mapping loc = Ok (if str_eqb loc (lit "E") then [] else lit "IE-").
Proof. intros [H|[H|H]]; subst; reflexivity. Qed.

Lemma iob_mapping_other (loc : str) :
  loc <> lit "B" -> loc <> lit "I" -> loc <> lit "E" -> iob_mapping loc = Err KeyError.
Proof.
  intros HB HI HE. unfold iob_mapping.
  rewrite (str_eqb_false _ _ HB), (str_eqb_false _ _ HI), (str_eqb_false _ _ HE). reflexivity.
Qed.

(** ** C8: same base label *)

(** C8: for [left = <loc_l>-<base>] ([loc_l] without separator) and
    [right = <loc_r>-<base>] with [loc_r] one of [B], [I], [E] (and
    [right] not the pad token), [iob_precedes] joins, with label
    [IE-<base>] for [B]/[I] and the bare [<base>] for [E]. *)
Theorem C8_iob_precedes_same_base (loc_l loc_r base pad_token : str) :
  has_dash loc_l = false ->
  loc_r = lit "B" \/ loc_r = lit "I" \/ loc_r = lit "E" ->
  loc_r ++ dash :: base <> pad_token ->
  iob_precedes (Some (loc_l ++ dash :: base)) (loc_r ++ dash :: base) pad_token
  = Ok (Some (true, if str_eqb loc_r (lit "E") then base else lit "IE-" ++ base)).
Proof.
  intros Hl Hr Hpad. unfold iob_precedes.
  rewrite (str_eqb_false _ _ Hpad), andb_false_r.
  assert (Hrd : has_dash loc_r = false) by (destruct Hr as [H|[H|H]]; subst; reflexivity).
  rewrite (split_dash_app _ _ Hrd), has_dash_app, (split_dash_app _ _ Hl).
  cbn [negb]. rewrite str_eqb_refl, py_in_refl. cbn [negb].
  rewrite (iob_mapping_BIE _ Hr). cbn [bind].
  destruct (str_eqb loc_r (lit "E")); reflexivity.
Qed.

Lemma C8_iob_precedes_same_base_witness :
  (has_dash (lit "IE") = false /\ (lit "E" = lit "B" \/ lit "E" = lit "I" \/ lit "E" = lit "E")
   /\ lit "E" ++ dash :: lit "PER" <> PAD)
  /\ iob_precedes (Some (lit "IE" ++ dash :: lit "PER")) (lit "E" ++ dash :: lit "PER") PAD
     = Ok (Some (true, lit "PER")).
Proof.
  split; [split; [reflexivity|split; [right; right; reflexivity|discriminate]]|].
  apply (C8_iob_precedes_same_base (lit "IE") (lit "E") (lit "PER") PAD).
  - reflexivity.
  - right; right; reflexivity.
  - discriminate.
Defined.

(** ** C10: partiality of the join policy *)

(** C10: [iob_precedes] returns a pair for every [left] when [right] has no
    separator or its prefix is [B], [I] or [E]; for a [right] label
    [<p>-<base>] with any other prefix [p] (and [right] not the pad token)
    it raises [KeyError]. *)
Theorem C10_iob_precedes_partial (pad_token : str) :
  (forall left right,
     (has_dash right = false \/
      exists loc base, split_dash right = Some (loc, base) /\
                       (loc = lit "B" \/ loc = lit "I" \/ loc = lit "E")) ->
     exists p, iob_precedes left right pad_token = Ok (Some p))
  /\ (forall left p base,
        has_dash p = false -> p <> lit "B" -> p <> lit "I" -> p <> lit "E" ->
        p ++ dash :: base <> pad_token ->
        iob_precedes left (p ++ dash :: base) pad_token = Err KeyError).
Proof.
  split.
  - intros left right Hr. unfold iob_precedes.
    destruct (_ && _); [eexists; reflexivity|].
    destruct Hr as [Hn|[loc [base [Hs Hloc]]]].
    + rewrite (split_dash_none _ Hn). eexists; reflexivity.
    + rewrite Hs, (iob_mapping_BIE _ Hloc). simpl.
      destruct left as [l|]; [|eexists; reflexivity].
      destruct (has_dash l); simpl; [|eexists; reflexivity].
      destruct (split_dash l) as [[ll lb]|]; [|eexists; reflexivity].
      destruct (str_eqb lb base) eqn:E; simpl; [|eexists; reflexivity].
      apply str_eqb_true in E. subst lb. rewrite py_in_refl. eexists; reflexivity.
  - intros left p base Hp HB HI HE Hpad. unfold iob_precedes.
    rewrite (str_eqb_false _ _ Hpad), andb_false_r, (split_dash_app _ _ Hp),
      (iob_mapping_other _ HB HI HE).
    destruct left as [l|]; [|reflexivity].
    destruct (has_dash l) eqn:Hd; simpl; [|reflexivity].
    destruct (split_dash_some _ Hd) as [ll [lb Hl]]. rewrite Hl.
    destruct (str_eqb lb base) eqn:E; simpl; [|reflexivity].
    apply str_eqb_true in E. subst lb. rewrite py_in_refl. reflexivity.
Qed.

Lemma C10_iob_precedes_partial_witness :
  (exists p, iob_precedes (Some (lit "B-PER")) (lit "E-PER") PAD = Ok (Some p))
  /\ iob_precedes None (lit "IE" ++ dash :: lit "PER") PAD = Err KeyError.
Proof.
  split.
  - apply (proj1 (C10_iob_precedes_partial PAD)). right.
    exists (lit "E"), (lit "PER"). split; [reflexivity|right; right; reflexivity].
  - apply (proj2 (C10_iob_precedes_partial PAD)); [reflexivity|discriminate..].
Defined.

Section Steps.
Variable text : str.
Variable tokens : list (Z * Z).
Variable ml : bool.
Variable none_value : str.
Variables sl iob : bool.

Lemma ann_head_no_tail (st : i2f_state) (a : iann) (s e : Z) :
  ann_bounds text tokens none_value sl iob a = (s, e) ->
  last_loc st <= e ->
  ann_head text tokens ml none_value sl iob st a =
  Ok (fst (pre_pieces text ml none_value st s), snd (pre_pieces text ml none_value st s),
      py_len (snd (pre_pieces text ml none_value st s)) - 1, 0, s, e).
Proof.
  intros Hb Hle. unfold ann_head, pre_pieces. rewrite Hb.
  replace (0 <? last_loc st - e) with false by (symmetry; apply Z.ltb_ge; lia).
  destruct (last_loc st <? s); reflexivity.
Qed.

Lemma ann_step_overlap_error (st : i2f_state) (a : iann) subs labs j skip s e :
  ann_head text tokens false none_value sl iob st a = Ok (subs, labs, j, skip, s, e) ->
  s < last_loc st - skip ->
  ann_step text tokens false none_value sl iob st a = Err ValueError.
Proof.
  intros Hh Hlt. unfold ann_step. rewrite Hh. cbn [bind].
  replace (s <? last_loc st - skip) with true by (symmetry; apply Z.ltb_lt; lia).
  reflexivity.
Qed.

Lemma ann_step_fresh (st : i2f_state) (a : iann) (s e : Z) :
  ann_bounds text tokens none_value sl iob a = (s, e) ->
  last_loc st <= s -> s < e ->
  (iob = true \/ i_text a = None \/ i_text a = Some (py_slice text s e)) ->
  ann_step text tokens ml none_value sl iob st a =
  Ok (mk_i2f e (fst (pre_pieces text ml none_value st s) ++ [py_slice text s e])
             (snd (pre_pieces text ml none_value st s) ++ [if ml then Many [i_label a] else One (i_label a)])).
Proof.
  intros Hb H1 H2 Ht. unfold ann_step.
  rewrite (ann_head_no_tail st a s e Hb) by lia. cbn [bind].
  replace (s <? last_loc st - 0) with false by (symmetry; apply Z.ltb_ge; lia).
  destruct Ht as [Hi | [Ht | Ht]]; cbn [bind];
    replace (e <=? s) with false by (symmetry; apply Z.leb_gt; lia).
  - rewrite Hi. destruct (i_text a); reflexivity.
  - rewrite Ht. reflexivity.
  - rewrite Ht, str_eqb_refl. destruct iob; reflexivity.
Qed.
End Steps.

Lemma ann_loop_app text tokens ml none_value sl iob st l1 l2 :
  ann_loop text tokens ml none_value sl iob st (l1 ++ l2) =
  bind (ann_loop text tokens ml none_value sl iob st l1)
       (fun st' => ann_loop text tokens ml none_value sl iob st' l2).
Proof.
  revert st; induction l1 as [|a l1 IH]; intro st; simpl; [reflexivity|].
  destruct (ann_step text tokens ml none_value sl iob st a); simpl; [apply IH|reflexivity].
Qed.

Lemma round_down_bounds (tokens : list (Z*Z)) (fuel : nat) (st : Z) :
  0 <= st -> 0 <= round_down tokens fuel st <= st.
Proof.
  revert st; induction fuel as [|f IH]; intros st H; simpl; [lia|].
  destruct (_ && _) eqn:E; [|lia].
  apply andb_true_iff in E as [E _]. apply Z.ltb_lt in E.
  specialize (IH (st - 1)). lia.
Qed.

Lemma round_up_spec (text : str) (tokens : list (Z*Z)) (e : Z) :
  let v := round_up text tokens (Z.to_nat (py_len text - e)) e in
  e <= v /\ ends_at text tokens v = true /\
  (forall w, e <= w < v -> ends_at text tokens w = false).
Proof.
  remember (Z.to_nat (py_len text - e)) as fuel eqn:Hf. revert e Hf.
  induction fuel as [|f IH]; intros e Hf; simpl.
  - split; [lia|split; [|intros; lia]]. unfold ends_at. apply orb_true_iff; left. apply Z.leb_le. lia.
  - destruct ((e <? py_len text) && negb (zmem e (i_token_ends tokens))) eqn:E.
    + apply andb_true_iff in E as [E1 E2]. apply Z.ltb_lt in E1.
      destruct (IH (e + 1)) as [H1 [H2 H3]]; [lia|].
      split; [lia|split; [exact H2|]].
      intros w Hw. destruct (Z.eq_dec w e) as [->|Hne]; [|apply H3; lia].
      unfold ends_at. apply negb_true_iff in E2. rewrite E2. rewrite orb_false_r. apply Z.leb_gt. lia.
    + split; [lia|split; [|intros; lia]].
      unfold ends_at. apply andb_false_iff in E as [E|E].
      * apply Z.ltb_ge in E. apply orb_true_iff; left. apply Z.leb_le. lia.
      * apply negb_false_iff in E. rewrite E. apply orb_true_r.
Qed.

Lemma round_up_mono (text : str) (tokens : list (Z*Z)) (e e' : Z) :
  e <= e' ->
  round_up text tokens (Z.to_nat (py_len text - e)) e
  <= round_up text tokens (Z.to_nat (py_len text - e')) e'.
Proof.
  intro H.
  destruct (round_up_spec text tokens e) as [A1 [A2 A3]].
  destruct (round_up_spec text tokens e') as [B1 [B2 B3]].
  set (v := round_up text tokens (Z.to_nat (py_len text - e)) e) in *.
  set (v' := round_up text tokens (Z.to_nat (py_len text - e')) e') in *.
  destruct (Z_le_gt_dec v v') as [|Hgt]; [assumption|].
  rewrite (A3 v') in B2 by lia. discriminate.
Qed.

Lemma C3_pair_bounds text tokens none_value sl x y s1 e1 s2 e2 :
  x <> none_value -> y <> none_value ->
  ann_bounds text tokens none_value sl false (mk_iann 0 10 x None) = (s1, e1) ->
  ann_bounds text tokens none_value sl false (mk_iann 5 15 y None) = (s2, e2) ->
  s1 = 0 /\ 10 <= e1 /\ 0 <= s2 <= 5 /\ e1 <= e2.
Proof.
  intros Hx Hy B1 B2. unfold ann_bounds in B1, B2. cbn [i_label i_start i_end] in B1, B2.
  rewrite (str_eqb_false _ _ Hx) in B1. rewrite (str_eqb_false _ _ Hy) in B2.
  destruct sl; cbn [negb andb] in B1, B2; injection B1 as <- <-; injection B2 as <- <-.
  - lia.
  - pose proof (round_down_bounds tokens (Z.to_nat 5) 5) as R.
    pose proof (round_up_spec text tokens 10) as [U _].
    pose proof (round_up_mono text tokens 10 15) as M.
    simpl round_down. split; [reflexivity|]. split; [exact U|]. split; [apply R; lia|apply M; lia].
Qed.

(** ** C3: overlaps without [multi_label] *)

(** C3: with [multi_label = false], an annotation whose (rounded) start
    lies before the end of the emitted segments minus what the tail split
    peeled off makes the whole document conversion raise [ValueError]; in
    particular [{0,10,X}] and [{5,15,Y}] (without IOB) raise it for every
    text, tokenisation and [subtoken_labels]. *)
Theorem C3_overlap_single_label_raises :
  (forall text tokens none_value sl iob enc label_seq pre a rest st subs labs j skip s e,
     prepared text none_value iob enc label_seq = pre ++ a :: rest ->
     ann_loop text tokens false none_value sl iob (mk_i2f 0 [] []) pre = Ok st ->
     ann_head text tokens false none_value sl iob st a = Ok (subs, labs, j, skip, s, e) ->
     s < last_loc st - skip ->
     indico_to_finetune_doc text tokens false none_value sl iob enc label_seq = Err ValueError)
  /\ (forall text tokens none_value sl enc x y,
        x <> none_value -> y <> none_value ->
        indico_to_finetune_doc text tokens false none_value sl false enc
          [mk_iann 0 10 x None; mk_iann 5 15 y None] = Err ValueError).
Proof.
  split.
  - intros text tokens none_value sl iob enc label_seq pre a rest st subs labs j skip s e
      Hp Hpre Hh Hlt.
    unfold indico_to_finetune_doc. rewrite Hp, ann_loop_app, Hpre. cbn [bind ann_loop].
    rewrite (ann_step_overlap_error _ _ _ _ _ _ _ _ _ _ _ _ _ Hh Hlt). reflexivity.
  - intros text tokens none_value sl enc x y Hx Hy.
    destruct (ann_bounds text tokens none_value sl false (mk_iann 0 10 x None)) as [s1 e1] eqn:B1.
    destruct (ann_bounds text tokens none_value sl false (mk_iann 5 15 y None)) as [s2 e2] eqn:B2.
    destruct (C3_pair_bounds _ _ _ _ _ _ _ _ _ _ Hx Hy B1 B2) as [-> [H1 [H2 H3]]].
    unfold indico_to_finetune_doc, prepared. cbn [sort_by insert_by i_start].
    change (0 <=? 5) with true. cbn iota. cbn [ann_loop].
    rewrite (ann_step_fresh _ _ _ _ _ _ _ _ _ _ B1) by (cbn; first [lia | right; left; reflexivity]). cbn [bind].
    match goal with
    | |- context [ann_step _ _ _ _ _ _ ?st ?a] =>
        assert (Hh := ann_head_no_tail text tokens false none_value sl false st a s2 e2 B2
                        ltac:(cbn; lia))
    end.
    rewrite (ann_step_overlap_error _ _ _ _ _ _ _ _ _ _ _ _ _ Hh) by (cbn; lia).
    reflexivity.
Qed.

Lemma C3_overlap_single_label_raises_witness :
  indico_to_finetune_doc (lit "abcdefghijklmno") [] false PAD true false no_encoder
    [mk_iann 0 10 X None; mk_iann 5 15 Y None] = Err ValueError
  /\ indico_to_finetune_doc (lit "abcdefghijklmnop") [(0, 6); (7, 16)] false PAD false false
       no_encoder [mk_iann 0 10 X None; mk_iann 5 15 Y None] = Err ValueError.
Proof.
  split.
  - apply (proj1 C3_overlap_single_label_raises)
      with (pre := [mk_iann 0 10 X None]) (a := mk_iann 5 15 Y None) (rest := [])
           (st := mk_i2f 10 [lit "abcdefghij"] [One X])
           (subs := [lit "abcdefghij"]) (labs := [One X]) (j := 0) (skip := 0) (s := 5) (e := 15);
      vm_compute; reflexivity.
  - apply (proj2 C3_overlap_single_label_raises); discriminate.
Defined.


Lemma py_len_nonneg {A} (l : list A) : 0 <= py_len l.
Proof. unfold py_len. lia. Qed.

Lemma py_slice_all {A} (l : list A) : py_slice l 0 (py_len l) = l.
Proof.
  unfold py_slice, slice_idx. pose proof (py_len_nonneg l).
  replace (0 <? 0) with false by reflexivity.
  replace (py_len l <? 0) with false by (symmetry; apply Z.ltb_ge; lia).
  rewrite !Z.min_l by lia. rewrite Z.sub_0_r. cbn [Z.to_nat skipn].
  unfold py_len. rewrite Nat2Z.id. apply firstn_all.
Qed.

Lemma py_slice_len {A} (l : list A) (a b : Z) :
  0 <= a <= b -> b <= py_len l -> py_len (py_slice l a b) = b - a.
Proof.
  intros H1 H2. unfold py_slice, slice_idx.
  replace (a <? 0) with false by (symmetry; apply Z.ltb_ge; lia).
  replace (b <? 0) with false by (symmetry; apply Z.ltb_ge; lia).
  rewrite !Z.min_l by lia. unfold py_len in *.
  rewrite length_firstn, length_skipn. lia.
Qed.

Lemma py_slice_to_last {A} (l : list A) (x : A) : py_slice_to (l ++ [x]) (-1) = l.
Proof.
  unfold py_slice_to, py_slice, slice_idx, py_len. rewrite length_app. cbn [List.length].
  replace (0 <? 0) with false by reflexivity.
  replace (-1 <? 0) with true by reflexivity.
  rewrite Z.min_l by lia. rewrite Z.max_r by lia. cbn [skipn].
  replace (Z.to_nat (-1 + Z.of_nat (List.length l + 1) - 0)) with (List.length l) by lia.
  change (skipn (Z.to_nat 0) (l ++ [x])) with (l ++ [x]).
  rewrite firstn_app, firstn_all, Nat.sub_diag. simpl. apply app_nil_r.
Qed.

(** ** C7: IOB expansion of an annotation with more than two sub-tokens *)

(** C7: a non-filler annotation whose text (given as [None] or as the
    slice itself, within the document) has sub-token end offsets
    [c0 :: mid ++ [ck; clast]] (more than two sub-tokens) expands to
    exactly [B-] over the first sub-token [[start, start+c0)], [E-] over
    the last [[start+ck, end)] and one [I-] over [[start+c0, start+ck)]
    in between: the three ranges tile [[start, end)]. *)
Theorem C7_iob_expand_three (text : str) (none_value : str) (enc : str -> list Z) (a : iann)
  (c0 ck clast : Z) (mid : list Z) :
  i_label a <> none_value ->
  (i_text a = None \/ i_text a = Some (py_slice text (i_start a) (i_end a))) ->
  0 <= i_start a <= i_end a -> i_end a <= py_len text ->
  enc (py_slice text (i_start a) (i_end a)) = c0 :: mid ++ [ck; clast] ->
  let sub := py_slice text (i_start a) (i_end a) in
  iob_expand_one text none_value enc a =
  [mk_iann (i_start a) (i_start a + c0) (lit "B-" ++ i_label a) (Some (py_slice sub 0 c0));
   mk_iann (i_start a + ck) (i_end a) (lit "E-" ++ i_label a) (Some (py_slice sub ck (py_len sub)));
   mk_iann (i_start a + c0) (i_start a + ck) (lit "I-" ++ i_label a) (Some (py_slice sub c0 ck))].
Proof.
  intros Hl Ht Hb He Henc sub.
  assert (Hsub : match i_text a with
                 | Some ((_ :: _) as t) => t
                 | _ => py_slice text (i_start a) (i_end a)
                 end = sub).
  { destruct Ht as [-> | ->]; [reflexivity|]. unfold sub. destruct (py_slice _ _ _); reflexivity. }
  unfold iob_expand_one. rewrite (str_eqb_false _ _ Hl), Hsub.
  fold sub in Henc. rewrite Henc.
  replace (c0 :: mid ++ [ck; clast]) with ((c0 :: mid ++ [ck]) ++ [clast])
    by (simpl; rewrite <- app_assoc; reflexivity).
  rewrite py_slice_to_last.
  assert (Hlen : py_len sub = i_end a - i_start a) by (apply py_slice_len; lia).
  assert (Hlast : last (0 :: c0 :: mid ++ [ck]) 0 = ck)
    by (rewrite !app_comm_cons; apply last_last).
  cbn [List.length]. rewrite length_app. cbn [List.length].
  replace (List.length mid + 1)%nat with (S (List.length mid)) by lia.
  cbn -[py_slice py_len last]. rewrite Hlast, Hlen, Z.add_0_r.
  replace (i_start a + (i_end a - i_start a)) with (i_end a) by lia.
  reflexivity.
Qed.

(** A segment label made only of the filler value. *)
Lemma label_step_filler raw_text tokens none_value sp iob mlb sub st :
  (iob = false \/ has_dash none_value = false) ->
  exists st', label_step raw_text tokens none_value sp iob mlb sub st none_value = Ok st'
              /\ doc_anns st' = doc_anns st.
Proof.
  intro Hn. unfold label_step. rewrite str_eqb_refl. cbn [negb bind].
  assert (Hi : exists nl,
    (if iob && Nat.eqb (List.length (doc_anns st)) 0 then
       p <- iob_precedes None none_value none_value ;;
       match p with Some (_, x) => Ok (Some x) | None => Err TypeError end
     else Ok None) = Ok nl).
  { destruct iob; [|eexists; reflexivity]. destruct Hn as [Hn|Hn]; [discriminate|].
    cbn [andb]. destruct (Nat.eqb _ _); [|eexists; reflexivity].
    unfold iob_precedes. rewrite (split_dash_none _ Hn). eexists; reflexivity. }
  destruct Hi as [nl Hi]. rewrite Hi. cbn [bind].
  destruct (_ =? -1); [eexists; split; reflexivity|].
  destruct (negb sp && _); cbn [bind]; eexists; split; reflexivity.
Qed.

Lemma labels_loop_filler raw_text tokens none_value sp iob mlb sub st ls :
  (iob = false \/ has_dash none_value = false) ->
  Forall (fun l => l = none_value) ls ->
  exists st', labels_loop raw_text tokens none_value sp iob mlb sub st ls = Ok st'
              /\ doc_anns st' = doc_anns st.
Proof.
  intros Hn Hf. revert st. induction Hf as [|l ls Hl Hf IH]; intro st; simpl.
  - eexists; split; reflexivity.
  - subst l. destruct (label_step_filler raw_text tokens none_value sp iob mlb sub st Hn)
      as [st1 [E1 D1]].
    rewrite E1. cbn [bind]. destruct (IH st1) as [st2 [E2 D2]].
    exists st2. split; [exact E2|congruence].
Qed.

Lemma segs_loop_filler raw_text tokens none_value sp iob st doc_seq label_seq :
  (iob = false \/ has_dash none_value = false) ->
  Forall (filler_label none_value) label_seq ->
  exists st', segs_loop raw_text tokens none_value sp iob st (combine doc_seq label_seq) = Ok st'
              /\ doc_anns st' = doc_anns st.
Proof.
  intros Hn Hf. revert st doc_seq. induction Hf as [|r rs Hr Hf IH]; intros st doc_seq.
  - destruct doc_seq; eexists; split; reflexivity.
  - destruct doc_seq as [|sub doc_seq]; [eexists; split; reflexivity|].
    cbn [combine segs_loop].
    assert (H1 : exists st1, seg_step raw_text tokens none_value sp iob st (sub, r) = Ok st1
                             /\ doc_anns st1 = doc_anns st).
    { destruct r as [l|ls]; cbn [seg_step filler_label] in *.
      - apply labels_loop_filler; [exact Hn|]. subst l. constructor; constructor.
      - apply labels_loop_filler; assumption. }
    destruct H1 as [st1 [E1 D1]]. rewrite E1. cbn [bind].
    destruct (IH st1 doc_seq) as [st2 [E2 D2]]. exists st2. split; [exact E2|congruence].
Qed.

(** ** C6: documents without annotations *)

(** C6 (amended): a non-empty document without annotations yields exactly
    one segment, the whole text with the filler label, and the empty
    document yields none; segments carrying only the filler label yield
    no annotation when IOB mode is off or the filler has no [-]. *)
Theorem C6_filler_completeness :
  (forall text tokens ml none_value sl iob enc,
     text <> [] ->
     indico_to_finetune_doc text tokens ml none_value sl iob enc [] = Ok ([text], [filler ml none_value]))
  /\ (forall tokens ml none_value sl iob enc,
        indico_to_finetune_doc [] tokens ml none_value sl iob enc [] = Ok ([], []))
  /\ (forall raw_text tokens none_value sp iob doc_seq label_seq,
        (iob = false \/ has_dash none_value = false) ->
        Forall (filler_label none_value) label_seq ->
        exists w, finetune_to_indico_doc raw_text tokens none_value sp iob doc_seq label_seq
                  = Ok ([], w)).
Proof.
  split; [|split].
  - intros text tokens ml none_value sl iob enc Ht.
    unfold indico_to_finetune_doc, prepared. destruct iob; cbn [flat_map sort_by ann_loop bind last_loc].
    all: replace (0 =? py_len text) with false
           by (symmetry; apply Z.eqb_neq; destruct text; [congruence|unfold py_len; simpl; lia]).
    all: cbn [negb subseqs dlabels app]; unfold py_slice_from; rewrite py_slice_all; reflexivity.
  - intros. unfold indico_to_finetune_doc, prepared. destruct iob; reflexivity.
  - intros raw_text tokens none_value sp iob doc_seq label_seq Hn Hf.
    destruct (segs_loop_filler raw_text tokens none_value sp iob init_f2i doc_seq label_seq Hn Hf)
      as [st [E D]].
    unfold finetune_to_indico_doc. rewrite E. cbn [bind]. rewrite D. cbn [doc_anns init_f2i].
    destruct iob; eexists; reflexivity.
Qed.

Lemma C6_filler_completeness_witness :
  indico_to_finetune_doc (lit "ab") [] true PAD false false no_encoder [] = Ok ([lit "ab"], [Many [PAD]])
  /\ exists w, finetune_to_indico_doc (lit "ab") [] PAD false true [lit "a"; lit "b"]
                [Single PAD; Multi [PAD; PAD]] = Ok ([], w).
Proof.
  split.
  - apply (proj1 C6_filler_completeness). discriminate.
  - apply (proj2 (proj2 C6_filler_completeness)).
    + right. reflexivity.
    + repeat constructor.
Defined.

Lemma C7_iob_expand_three_witness :
  (mk_iann 0 6 (lit "PER") None).(i_label) <> PAD
  /\ iob_expand_one (lit "abcdef") PAD (fun _ => [2; 4; 5; 6]) (mk_iann 0 6 (lit "PER") None)
     = [mk_iann 0 (0 + 2) (lit "B-" ++ lit "PER") (Some (py_slice (py_slice (lit "abcdef") 0 6) 0 2));
        mk_iann (0 + 5) 6 (lit "E-" ++ lit "PER")
          (Some (py_slice (py_slice (lit "abcdef") 0 6) 5 (py_len (py_slice (lit "abcdef") 0 6))));
        mk_iann (0 + 2) (0 + 5) (lit "I-" ++ lit "PER") (Some (py_slice (py_slice (lit "abcdef") 0 6) 2 5))].
Proof.
  split; [discriminate|].
  apply (C7_iob_expand_three (lit "abcdef") PAD (fun _ => [2; 4; 5; 6])
           (mk_iann 0 6 (lit "PER") None) 2 5 6 [4]).
  - discriminate.
  - left; reflexivity.
  - cbn; lia.
  - vm_compute; discriminate.
  - reflexivity.
Defined.

(** ** C2: round trip in exact mode *)

Lemma prefix_app (n r : str) : prefix n (n ++ r) = true.
Proof. induction n as [|c n IH]; simpl; [reflexivity|rewrite Ascii.eqb_refl, IH; reflexivity]. Qed.

Lemma prefix_true (n l : str) : prefix n l = true -> exists r, l = n ++ r.
Proof.
  revert l; induction n as [|c n IH]; intros l H; [exists l; reflexivity|].
  destruct l as [|d l]; [discriminate|]. simpl in H.
  apply andb_true_iff in H as [H1 H2]. apply Ascii.eqb_eq in H1. subst d.
  destruct (IH l H2) as [r ->]. exists r. reflexivity.
Qed.

Lemma slice_nonneg_eq {A} (l : list A) (a b : Z) :
  0 <= a -> 0 <= b ->
  py_slice l a b = firstn (Z.to_nat (Z.min b (py_len l) - Z.min a (py_len l)))
                          (skipn (Z.to_nat (Z.min a (py_len l))) l).
Proof.
  intros Ha Hb. unfold py_slice, slice_idx.
  replace (a <? 0) with false by (symmetry; apply Z.ltb_ge; lia).
  replace (b <? 0) with false by (symmetry; apply Z.ltb_ge; lia). reflexivity.
Qed.

(** An occurrence found by [prefix] is a slice. *)

Lemma prefix_slice (l sub : str) (p : Z) :
  0 <= p -> p <= py_len l -> prefix sub (skipn (Z.to_nat p) l) = true ->
  py_slice l p (p + py_len sub) = sub.
Proof.
  intros Hp Hpl H. apply prefix_true in H as [r Hr].
  assert (Hlen : py_len l >= p + py_len sub).
  { unfold py_len in *. assert (E := f_equal (@List.length _) Hr).
    rewrite length_skipn, length_app in E. lia. }
  rewrite slice_nonneg_eq by (unfold py_len in *; lia).
  rewrite !Z.min_l by lia. rewrite Hr.
  replace (Z.to_nat (p + py_len sub - p)) with (List.length sub) by (unfold py_len; lia).
  rewrite firstn_app, firstn_all, Nat.sub_diag. simpl. apply app_nil_r.
Qed.

Lemma skipn_slice {A} (l : list A) (a b : Z) :
  0 <= a <= b -> b <= py_len l ->
  skipn (Z.to_nat a) l = py_slice l a b ++ skipn (Z.to_nat b) l.
Proof.
  intros H1 H2. rewrite slice_nonneg_eq by lia. rewrite !Z.min_l by lia.
  replace (Z.to_nat b) with (Z.to_nat (b - a) + Z.to_nat a)%nat by lia.
  rewrite <- skipn_skipn. symmetry. apply firstn_skipn.
Qed.

Lemma find_aux_first (needle l : str) (pos : Z) (k : nat) :
  prefix needle (skipn k l) = true -> (k <= List.length l)%nat ->
  exists k0, (k0 <= k)%nat /\ find_aux needle l pos = pos + Z.of_nat k0
             /\ prefix needle (skipn k0 l) = true
             /\ (forall i, (i < k0)%nat -> prefix needle (skipn i l) = false).
Proof.
  revert pos k. induction l as [|c l IH]; intros pos k H Hk.
  - assert (k = 0%nat) by (simpl in Hk; lia). subst k.
    exists 0%nat. split; [lia|split; [simpl in *; rewrite H; lia|split; [exact H|intros; lia]]].
  - destruct (prefix needle (c :: l)) eqn:E.
    + exists 0%nat. split; [lia|split; [simpl; rewrite E; lia|split; [exact E|intros; lia]]].
    + destruct k as [|k]; [simpl in H; congruence|].
      simpl in H, Hk. destruct (IH (pos + 1) k H ltac:(lia)) as [k0 [K1 [K2 [K4 K3]]]].
      exists (S k0). split; [lia|split; [|split]].
      * simpl. rewrite E. rewrite K2. lia.
      * exact K4.
      * intros [|i] Hi; [exact E|]. simpl. apply K3. lia.
Qed.

(** [py_find] from [c] finds the first occurrence at or after [c]. *)

Lemma py_find_first (hay needle : str) (c p : Z) :
  0 <= c <= p -> prefix needle (skipn (Z.to_nat p) hay) = true -> p <= py_len hay ->
  exists q, c <= q <= p /\ py_find hay needle c = q
            /\ prefix needle (skipn (Z.to_nat q) hay) = true
            /\ (forall i, c <= i < q -> prefix needle (skipn (Z.to_nat i) hay) = false).
Proof.
  intros Hc Hp Hlen. unfold py_find.
  replace (c <? 0) with false by (symmetry; apply Z.ltb_ge; lia).
  replace (py_len hay <? c) with false by (symmetry; apply Z.ltb_ge; lia).
  assert (Hp' : prefix needle (skipn (Z.to_nat (p - c)) (skipn (Z.to_nat c) hay)) = true).
  { rewrite skipn_skipn. replace (Z.to_nat (p - c) + Z.to_nat c)%nat with (Z.to_nat p) by lia. exact Hp. }
  destruct (find_aux_first needle (skipn (Z.to_nat c) hay) c (Z.to_nat (p - c)) Hp')
    as [k0 [K1 [K2 [K4 K3]]]].
  { rewrite length_skipn. unfold py_len in Hlen. lia. }
  exists (c + Z.of_nat k0). split; [lia|split; [exact K2|split]].
  - rewrite skipn_skipn in K4. replace (Z.to_nat (c + Z.of_nat k0)) with (k0 + Z.to_nat c)%nat by lia.
    exact K4.
  - intros i Hi. specialize (K3 (Z.to_nat (i - c)) ltac:(lia)).
    rewrite skipn_skipn in K3. replace (Z.to_nat (i - c) + Z.to_nat c)%nat with (Z.to_nat i) in K3 by lia.
    exact K3.
Qed.

Lemma lstrip_suffix (l : str) : exists u, l = u ++ lstrip l.
Proof.
  induction l as [|c l [u Hu]]; [exists []; reflexivity|]. simpl.
  destruct (py_isspace c); [exists (c :: u); simpl; congruence|exists []; reflexivity].
Qed.

Lemma strip_decomp (x : str) : exists u t, x = u ++ py_strip x ++ t.
Proof.
  destruct (lstrip_suffix x) as [u Hu].
  destruct (lstrip_suffix (rev (lstrip x))) as [v Hv].
  exists u, (rev v). unfold py_strip. rewrite Hu at 1. f_equal.
  set (y := lstrip (rev (lstrip x))) in *.
  rewrite <- (rev_involutive (lstrip x)). rewrite Hv, rev_app_distr. reflexivity.
Qed.

Lemma scan_nomerge none_value label items nl0 s :
  (forall b, In b items -> a_label b = label -> 1 < s - a_end b) ->
  exists nl, scan none_value false label items nl0 s = Ok (nl, s, items)
             /\ (nl = nl0 \/ nl = Some label).
Proof.
  revert nl0; induction items as [|b items IH]; intros nl0 H; simpl.
  - exists nl0. split; [reflexivity|left; reflexivity].
  - unfold join_of. cbn [bind].
    assert (Hj : str_eqb (a_label b) label && (s - a_end b <=? 1) = false).
    { destruct (str_eqb (a_label b) label) eqn:E; [|reflexivity].
      apply str_eqb_true in E. specialize (H b (or_introl eq_refl) E).
      apply Z.leb_gt. lia. }
    rewrite Hj.
    destruct (IH (Some label)) as [nl [E1 E2]]; [intros b' Hb'; apply H; right; exact Hb'|].
    rewrite E1. cbn [bind]. exists nl. split; [reflexivity|right; destruct E2; assumption].
Qed.

Lemma py_or_label nl nl0 label : (nl = nl0 \/ nl = Some label) -> nl0 = None -> py_or nl label = label.
Proof. intros [->| ->] ->; [reflexivity|]. simpl. destruct label; reflexivity. Qed.

Lemma label_step_ann text ftoks none_value st a :
  0 <= cursor st <= i_start a -> 0 <= i_start a < i_end a -> rt_good text none_value a ->
  (forall b, In b (doc_anns st) -> a_label b = i_label a -> a_end b + 1 < i_start a) ->
  (forall x, In x (ranges st) -> fst (fst x) < i_start a) ->
  label_step text ftoks none_value true false false (py_slice text (i_start a) (i_end a)) st (i_label a)
  = Ok (mk_f2i (i_start a) (start_idx st) (end_idx st) (doc_anns st ++ [to_ann text a])
               (ranges st ++ [(i_start a, i_end a, i_label a)]) (warns st)).
Proof.
  intros Hc Hse [He [Hl [Hst Hfirst]]] Hsame Hr.
  set (s := i_start a) in *. set (e := i_end a) in *.
  set (piece := py_slice text s e) in *.
  assert (Hlen : py_len piece = e - s) by (apply py_slice_len; lia).
  assert (Hfind : py_find text piece (cursor st) = s).
  { assert (Hp : prefix piece (skipn (Z.to_nat s) text) = true).
    { rewrite (skipn_slice text s e) by lia. apply prefix_app. }
    destruct (py_find_first text piece (cursor st) s ltac:(lia) Hp ltac:(lia))
      as [q [Q1 [Q2 [Q3 _]]]].
    rewrite Q2. destruct (Z.eq_dec q s) as [|Hne]; [assumption|].
    exfalso. apply (Hfirst q); [lia|].
    rewrite <- Hlen. apply prefix_slice; [lia|lia|exact Q3]. }
  unfold label_step. rewrite Hst, Hfind, Hlen, (str_eqb_false _ _ Hl). cbn [negb].
  destruct (scan_nomerge none_value (i_label a) (doc_anns st) None s) as [nl [Hs Hnl]].
  { intros b Hb Hlb. specialize (Hsame b Hb Hlb). lia. }
  rewrite Hs. cbn [bind andb].
  replace (s =? -1) with false by (symmetry; apply Z.eqb_neq; lia).
  cbn [bind].
  replace (s + (e - s)) with e by lia.
  assert (Hm : triple_mem (s, e, i_label a) (ranges st) = false).
  { unfold triple_mem. destruct (existsb _ _) eqn:E; [|reflexivity].
    apply existsb_exists in E as [[[x1 x2] x3] [Hx Hx']].
    specialize (Hr _ Hx). simpl in Hr, Hx'.
    apply andb_true_iff in Hx' as [Hx' _]. apply andb_true_iff in Hx' as [Hx' _].
    apply Z.eqb_eq in Hx'. lia. }
  rewrite Hm. rewrite (py_or_label nl None (i_label a) Hnl eq_refl). reflexivity.
Qed.

Lemma label_step_gap text ftoks none_value st ll s :
  0 <= cursor st <= ll -> ll <= s -> s <= py_len text ->
  exists q, cursor st <= q <= s /\
    label_step text ftoks none_value true false false (py_slice text ll s) st none_value
    = Ok (mk_f2i q (start_idx st) (end_idx st) (doc_anns st) (ranges st) (warns st)).
Proof.
  intros Hc Hls Hs.
  set (x := py_slice text ll s).
  destruct (strip_decomp x) as [u [t Hx]].
  assert (Hxl : py_len x = s - ll) by (apply py_slice_len; lia).
  assert (Hu : py_len x = py_len u + py_len (py_strip x) + py_len t).
  { rewrite Hx at 1. unfold py_len. rewrite !length_app. lia. }
  pose proof (py_len_nonneg u). pose proof (py_len_nonneg t). pose proof (py_len_nonneg (py_strip x)).
  assert (Hp : prefix (py_strip x) (skipn (Z.to_nat (ll + py_len u)) text) = true).
  { replace (Z.to_nat (ll + py_len u)) with (List.length u + Z.to_nat ll)%nat
      by (unfold py_len; lia).
    rewrite <- skipn_skipn, (skipn_slice text ll s) by lia. fold x.
    rewrite Hx at 2. rewrite <- app_assoc, skipn_app, skipn_all, Nat.sub_diag. simpl.
    rewrite <- app_assoc. apply prefix_app. }
  destruct (py_find_first text (py_strip x) (cursor st) (ll + py_len u) ltac:(lia) Hp ltac:(lia))
    as [q [Q1 [Q2 _]]].
  exists q. split; [lia|].
  unfold label_step. fold x. rewrite Q2, str_eqb_refl. cbn [negb bind andb].
  replace (q =? -1) with false by (symmetry; apply Z.eqb_neq; lia).
  reflexivity.
Qed.

Lemma segs_loop_app raw_text tokens none_value sp iob st l1 l2 :
  segs_loop raw_text tokens none_value sp iob st (l1 ++ l2) =
  bind (segs_loop raw_text tokens none_value sp iob st l1)
       (fun st' => segs_loop raw_text tokens none_value sp iob st' l2).
Proof.
  revert st; induction l1 as [|x l1 IH]; intro st; simpl; [reflexivity|].
  destruct (seg_step raw_text tokens none_value sp iob st x); simpl; [apply IH|reflexivity].
Qed.

Lemma f2i_loop text ftoks none_value As : forall ll st,
  0 <= cursor st <= ll -> chain ll As -> Forall (rt_good text none_value) As ->
  ForallOrdPairs same_sep As ->
  (forall x, In x (ranges st) -> fst (fst x) < ll) ->
  (forall b a, In b (doc_anns st) -> In a As -> a_label b = i_label a -> a_end b + 1 < i_start a) ->
  exists st', segs_loop text ftoks none_value true false st (map mkseg (pieces text none_value ll As))
              = Ok st' /\ doc_anns st' = doc_anns st ++ map (to_ann text) As.
Proof.
  induction As as [|a As IH]; intros ll st Hc Hch Hg Hfop Hr Hd.
  - exists st. split; [reflexivity|symmetry; apply app_nil_r].
  - destruct Hch as [H1 [H2 Hch]]. inversion Hg as [|? ? Hga Hg']; subst.
    inversion Hfop as [|? ? Hfa Hfop']; subst.
    assert (Hend : i_end a <= py_len text) by apply Hga.
    (* the gap before the annotation *)
    assert (Hgap : exists st1, segs_loop text ftoks none_value true false st
                     (map mkseg (if ll <? i_start a then [(py_slice text ll (i_start a), none_value)] else []))
                   = Ok st1 /\ 0 <= cursor st1 <= i_start a /\ doc_anns st1 = doc_anns st
                   /\ ranges st1 = ranges st /\ warns st1 = warns st).
    { destruct (ll <? i_start a) eqn:E.
      - destruct (label_step_gap text ftoks none_value st ll (i_start a) Hc ltac:(lia) ltac:(lia))
          as [q [Q1 Q2]].
        eexists. split.
        + cbn [map mkseg fst snd segs_loop seg_step labels_loop]. rewrite Q2. reflexivity.
        + cbn. repeat split; try reflexivity; lia.
      - exists st. split; [reflexivity|]. apply Z.ltb_ge in E. repeat split; lia. }
    destruct Hgap as [st1 [G1 [G2 [G3 [G4 _]]]]].
    cbn [pieces]. rewrite map_app, segs_loop_app.
    match goal with |- context [segs_loop ?t ?f ?n true false st ?L] =>
      replace (segs_loop t f n true false st L) with (Ok st1) by (symmetry; exact G1) end.
    cbn [bind map segs_loop].
    unfold mkseg at 1. cbn [fst snd seg_step labels_loop].
    rewrite (label_step_ann text ftoks none_value st1 a G2 ltac:(lia) Hga).
    2: { intros b Hb Hl. rewrite G3 in Hb. apply (Hd b a Hb (or_introl eq_refl) Hl). }
    2: { intros x Hx. rewrite G4 in Hx. specialize (Hr x Hx). lia. }
    cbn [bind labels_loop].
    destruct (IH (i_end a) (mk_f2i (i_start a) (start_idx st1) (end_idx st1)
                 (doc_anns st1 ++ [to_ann text a]) (ranges st1 ++ [(i_start a, i_end a, i_label a)])
                 (warns st1))) as [st2 [E2 D2]].
    + cbn. lia.
    + exact Hch.
    + exact Hg'.
    + exact Hfop'.
    + cbn [ranges]. intros x Hx. apply in_app_or in Hx as [Hx|[Hx|[]]].
      * rewrite G4 in Hx. specialize (Hr x Hx). lia.
      * subst x. simpl. lia.
    + cbn [doc_anns]. intros b a' Hb Ha' Hl. apply in_app_or in Hb as [Hb|[Hb|[]]].
      * rewrite G3 in Hb. apply (Hd b a' Hb (or_intror Ha') Hl).
      * subst b. rewrite Forall_forall in Hfa. apply (Hfa a' Ha' Hl).
    + exists st2. split; [exact E2|]. rewrite D2. cbn [doc_anns]. rewrite G3, <- app_assoc. reflexivity.
Qed.

Lemma i2f_loop text tokens none_value As : forall ll subs labs,
  chain ll As ->
  Forall (fun a => i_text a = None \/ i_text a = Some (py_slice text (i_start a) (i_end a))) As ->
  ann_loop text tokens false none_value true false (mk_i2f ll subs labs) As =
  Ok (mk_i2f (lastend ll As) (subs ++ map fst (pieces text none_value ll As))
             (labs ++ map (fun p => One (snd p)) (pieces text none_value ll As))).
Proof.
  induction As as [|a As IH]; intros ll subs labs Hch Ht.
  - cbn. rewrite !app_nil_r. reflexivity.
  - destruct Hch as [H1 [H2 Hch]]. inversion Ht as [|? ? Hta Ht']; subst.
    cbn [ann_loop].
    rewrite (ann_step_fresh text tokens false none_value true false _ a (i_start a) (i_end a))
      by (first [reflexivity | cbn; lia | right; exact Hta]).
    cbn [bind]. unfold pre_pieces. cbn [last_loc subseqs dlabels].
    cbn [pieces]. destruct (ll <? i_start a) eqn:E;
      rewrite IH by assumption; cbn [lastend]; f_equal; f_equal;
      rewrite ?map_app; cbn [map app fst snd filler]; rewrite <- !app_assoc; reflexivity.
Qed.

Lemma insert_by_perm {A} (key : A -> Z) x l : Permutation (x :: l) (insert_by key x l).
Proof.
  induction l as [|y l IH]; simpl; [reflexivity|].
  destruct (key x <=? key y); [reflexivity|].
  etransitivity; [apply perm_swap|]. constructor. exact IH.
Qed.

Lemma sort_by_perm {A} (key : A -> Z) l : Permutation l (sort_by key l).
Proof.
  induction l as [|x l IH]; simpl; [reflexivity|].
  etransitivity; [constructor; exact IH|apply insert_by_perm].
Qed.

Lemma insert_by_sorted {A} (key : A -> Z) x l :
  StronglySorted (fun a b => key a <= key b) l ->
  StronglySorted (fun a b => key a <= key b) (insert_by key x l).
Proof.
  induction l as [|y l IH]; intro H; simpl.
  - repeat constructor.
  - inversion H as [|? ? Hl Hf]; subst.
    destruct (key x <=? key y) eqn:E.
    + apply Z.leb_le in E. constructor; [exact H|]. constructor; [exact E|].
      eapply Forall_impl; [|exact Hf]. intros; simpl in *; lia.
    + apply Z.leb_gt in E. constructor; [apply IH, Hl|].
      eapply Permutation_Forall; [apply insert_by_perm|]. constructor; [lia|exact Hf].
Qed.

Lemma sort_by_sorted {A} (key : A -> Z) l :
  StronglySorted (fun a b => key a <= key b) (sort_by key l).
Proof. induction l; simpl; [constructor|apply insert_by_sorted; assumption]. Qed.

Lemma sorted_pairs {A} (R P : A -> A -> Prop) l :
  StronglySorted R l -> NoDup l ->
  (forall a b, In a l -> In b l -> a <> b -> P a b) ->
  ForallOrdPairs (fun a b => R a b /\ P a b) l.
Proof.
  induction 1 as [|a l Hs IH Hf]; intros Hn Hp; constructor.
  - inversion Hn as [|? ? Hnin Hn']; subst. rewrite Forall_forall in *.
    intros b Hb. split; [apply Hf, Hb|]. apply Hp; [left; reflexivity|right; exact Hb|].
    intro; subst; contradiction.
  - inversion Hn; subst. apply IH; [assumption|]. intros; apply Hp; auto. right; assumption. right; assumption.
Qed.

Lemma fop_impl {A} (P Q : A -> A -> Prop) l :
  (forall a b, In a l -> In b l -> P a b -> Q a b) -> ForallOrdPairs P l -> ForallOrdPairs Q l.
Proof.
  intros H Hf. induction Hf as [|a l Hf Hl IH]; constructor.
  - rewrite Forall_forall in *. intros b Hb. apply H; [left; reflexivity|right; exact Hb|apply Hf, Hb].
  - apply IH. intros; apply H; auto; right; assumption.
Qed.

Lemma chain_of ll As :
  Forall (fun a => ll <= i_start a /\ i_start a < i_end a) As ->
  ForallOrdPairs (fun a b => i_end a <= i_start b) As -> chain ll As.
Proof.
  revert ll. induction As as [|a As IH]; intros ll Hf Hp; simpl; [exact I|].
  inversion Hf as [|? ? [H1 H2] Hf']; subst. inversion Hp as [|? ? Hp1 Hp']; subst.
  split; [lia|split; [lia|]]. apply IH; [|exact Hp'].
  rewrite Forall_forall in *. intros b Hb. split; [apply Hp1, Hb|apply Hf', Hb].
Qed.

Lemma combine_mkseg (P : list (str * str)) :
  combine (map fst P) (map Single (map snd P)) = map mkseg P.
Proof. induction P as [|[x y] P IH]; simpl; [reflexivity|rewrite IH; reflexivity]. Qed.

(** C2 (amended): with [multi_label = false], exact offsets on both sides
    ([subtoken_labels], [subtoken_predictions]) and no IOB, the round trip
    gives back every annotation of [A], with its [start], [end], [label] and
    [text[start:end]], up to order, provided the annotations are pairwise
    disjoint and non-empty, carry no filler label, have no surrounding
    whitespace, have their optional [text] equal to [text[start:end]], are
    separated by more than one character when they share a label, and each
    occurs in the text first at its own [start]. *)
Theorem C2_roundtrip_exact (text : str) (tokens : list (Z * Z)) (none_value : str)
  (enc : str -> list Z) (A : list iann) :
  NoDup A ->
  (forall a, In a A ->
     0 <= i_start a < i_end a /\ i_end a <= py_len text /\ i_label a <> none_value
     /\ (i_text a = None \/ i_text a = Some (py_slice text (i_start a) (i_end a)))
     /\ py_strip (py_slice text (i_start a) (i_end a)) = py_slice text (i_start a) (i_end a)
     /\ (forall p, 0 <= p < i_start a ->
           py_slice text p (p + (i_end a - i_start a)) <> py_slice text (i_start a) (i_end a))) ->
  (forall a b, In a A -> In b A -> a <> b ->
     (i_end a <= i_start b \/ i_end b <= i_start a)
     /\ (i_label a = i_label b -> i_end a + 1 < i_start b \/ i_end b + 1 < i_start a)) ->
  exists segs ls out w,
    indico_to_finetune_doc text tokens false none_value true false enc A = Ok (segs, map One ls)
    /\ finetune_to_indico_doc text tokens none_value true false segs (map Single ls) = Ok (out, w)
    /\ Permutation out (map (to_ann text) A).
Proof.
  intros Hnd Hgood Hpair.
  set (As := sort_by i_start A).
  assert (Hperm : Permutation A As) by apply sort_by_perm.
  assert (HinA : forall a, In a As -> In a A)
    by (intros a Ha; apply (Permutation_in _ (Permutation_sym Hperm) Ha)).
  assert (Hfop : ForallOrdPairs (fun a b => i_end a <= i_start b /\ same_sep a b) As).
  { eapply fop_impl; [|apply (sorted_pairs _ (fun a b => (i_end a <= i_start b \/ i_end b <= i_start a)
     /\ (i_label a = i_label b -> i_end a + 1 < i_start b \/ i_end b + 1 < i_start a)) As (sort_by_sorted i_start A)
                            (Permutation_NoDup Hperm Hnd))].
    - intros a b Ha Hb [Hle [Hd Hs]].
      pose proof (Hgood a (HinA a Ha)) as [Ga _]. pose proof (Hgood b (HinA b Hb)) as [Gb _].
      split; [lia|]. intro Hl. specialize (Hs Hl). lia.
    - intros a b Ha Hb Hne. apply Hpair; auto. }
  assert (Hch : chain 0 As).
  { apply chain_of.
    - rewrite Forall_forall. intros a Ha. pose proof (Hgood a (HinA a Ha)). lia.
    - eapply fop_impl; [|exact Hfop]. intros a b _ _ [H _]. exact H. }
  assert (Hg : Forall (rt_good text none_value) As).
  { rewrite Forall_forall. intros a Ha. pose proof (Hgood a (HinA a Ha)) as (H1 & H2 & H3 & H4 & H5 & H6).
    repeat split; assumption. }
  assert (Ht : Forall (fun a => i_text a = None \/ i_text a = Some (py_slice text (i_start a) (i_end a))) As).
  { rewrite Forall_forall. intros a Ha. apply (Hgood a (HinA a Ha)). }
  assert (Hss : ForallOrdPairs same_sep As) by (eapply fop_impl; [|exact Hfop]; intros a b _ _ [_ H]; exact H).
  set (fin := if negb (lastend 0 As =? py_len text)
              then [(py_slice_from text (lastend 0 As), none_value)] else []).
  set (P := pieces text none_value 0 As ++ fin).
  assert (HI : indico_to_finetune_doc text tokens false none_value true false enc A
               = Ok (map fst P, map One (map snd P))).
  { unfold indico_to_finetune_doc, prepared. cbn [andb]. fold As.
    rewrite (i2f_loop text tokens none_value As 0 [] [] Hch Ht). cbn [bind last_loc subseqs dlabels].
    unfold P, fin. destruct (negb _); rewrite !map_app, map_map; cbn [map app fst snd filler];
      rewrite ?app_nil_r; reflexivity. }
  destruct (f2i_loop text tokens none_value As 0 init_f2i ltac:(cbn; lia) Hch Hg Hss
              ltac:(cbn; tauto) ltac:(cbn; tauto)) as [st1 [E1 D1]].
  assert (Hfin : exists st2, segs_loop text tokens none_value true false st1 (map mkseg fin) = Ok st2
                             /\ doc_anns st2 = doc_anns st1).
  { unfold fin. destruct (negb _).
    - apply (segs_loop_filler text tokens none_value true false st1
               [py_slice_from text (lastend 0 As)] [Single none_value]); [left; reflexivity|].
      repeat constructor.
    - exists st1. split; reflexivity. }
  destruct Hfin as [st2 [E2 D2]].
  exists (map fst P), (map snd P), (sort_by a_start (doc_anns st2)), (warns st2).
  split; [exact HI|split].
  - unfold finetune_to_indico_doc. rewrite combine_mkseg. unfold P.
    rewrite map_app, segs_loop_app, E1. cbn [bind]. rewrite E2. reflexivity.
  - rewrite D2, D1. cbn [doc_anns init_f2i app].
    etransitivity; [apply Permutation_sym, sort_by_perm|].
    apply Permutation_map, Permutation_sym, Hperm.
Qed.

Lemma C2_roundtrip_exact_witness :
  exists segs ls out w,
    indico_to_finetune_doc (lit "ab cd") [] false PAD true false no_encoder rt_A = Ok (segs, map One ls)
    /\ finetune_to_indico_doc (lit "ab cd") [] PAD true false segs (map Single ls) = Ok (out, w)
    /\ Permutation out (map (to_ann (lit "ab cd")) rt_A).
Proof.
  apply C2_roundtrip_exact.
  all: unfold rt_A.
  - apply NoDup_cons; [intros [H|[]]; discriminate H|].
    apply NoDup_cons; [intros []|apply NoDup_nil].
  - intros a Ha. destruct Ha as [<-|[<-|[]]];
      (split; [cbn; lia|]); (split; [vm_compute; congruence|]);
      (split; [intro H; inversion H|]);
      (split; [first [left; reflexivity|right; reflexivity]|]);
      (split; [vm_compute; reflexivity|]);
      intros p Hp; cbn [i_start] in Hp.
    + lia.
    + assert (p = 0 \/ p = 1 \/ p = 2) as [E|[E|E]] by lia; subst p; vm_compute; discriminate.
  - intros a b Ha Hb Hne.
    destruct Ha as [<-|[<-|[]]]; destruct Hb as [<-|[<-|[]]];
      try (exfalso; apply Hne; reflexivity);
      (split; [cbn; lia|intro Hl; inversion Hl]).
Defined.

(** * Properties of the other functions *)

(** X1: for [max_chars >= 0], [truncate_text] returns a text of at most
    [max_chars] characters unchanged, and otherwise its first [max_chars]
    characters followed by [...], [max_chars + 3] characters in all. *)
Theorem truncate_text_spec (text : str) (max_chars : Z) :
  0 <= max_chars ->
  (py_len text <= max_chars -> truncate_text text max_chars = text)
  /\ (max_chars < py_len text ->
      truncate_text text max_chars = firstn (Z.to_nat max_chars) text ++ lit "..."
      /\ py_len (truncate_text text max_chars) = max_chars + 3).
Proof.
  intro Hm. unfold truncate_text. split.
  - intro H. replace (max_chars <? py_len text) with false by (symmetry; apply Z.ltb_ge; lia). reflexivity.
  - intro H. replace (max_chars <? py_len text) with true by (symmetry; apply Z.ltb_lt; lia).
    assert (Hs : py_slice_to text max_chars = firstn (Z.to_nat max_chars) text).
    { unfold py_slice_to, py_slice, slice_idx.
      replace (0 <? 0) with false by reflexivity.
      replace (max_chars <? 0) with false by (symmetry; apply Z.ltb_ge; lia).
      rewrite !Z.min_l by lia. rewrite Z.sub_0_r. reflexivity. }
    rewrite Hs. split; [reflexivity|].
    unfold py_len in *. rewrite length_app, length_firstn. simpl. lia.
Qed.

(** X2: [flatten] distributes over concatenation and its length is the sum
    of the lengths of the inner lists. *)
Theorem flatten_spec {A} (outer1 outer2 : list (list A)) :
  flatten (outer1 ++ outer2) = flatten outer1 ++ flatten outer2
  /\ List.length (flatten outer1) = list_sum (map (@List.length A) outer1).
Proof.
  unfold flatten. split; [apply flat_map_app|].
  induction outer1 as [|x o IH]; simpl; [reflexivity|].
  rewrite length_app, length_map, IH. reflexivity.
Qed.

(** X3: [remove_none] distributes over concatenation, leaves no [None] and
    keeps a list without [None] unchanged. *)
Theorem remove_none_spec {A} (l1 l2 : list (option A)) (xs : list A) :
  remove_none (l1 ++ l2) = remove_none l1 ++ remove_none l2
  /\ (forall e, In e (remove_none l1) -> e <> None)
  /\ remove_none (map Some xs) = map Some xs.
Proof.
  unfold remove_none. split; [apply filter_app|split].
  - intros e He. apply filter_In in He as [_ He]. destruct e; congruence.
  - induction xs as [|x xs IH]; simpl; congruence.
Qed.

Lemma zip_step_none {A} (rows : list (list A)) :
  In [] rows -> zip_step rows = None.
Proof.
  induction rows as [|r rows IH]; intros H; [destruct H|].
  destruct H as [E|H]; [subst r; reflexivity|]. destruct r as [|x r]; [reflexivity|].
  simpl. rewrite IH by exact H. reflexivity.
Qed.

Lemma zip_step_some {A} (rows : list (list A)) :
  (forall r, In r rows -> r <> []) ->
  exists xs, zip_step rows = Some (xs, map (@tl A) rows)
             /\ map Some xs = map (fun r => nth_error r 0) rows.
Proof.
  induction rows as [|r rows IH]; intros H; [exists []; split; reflexivity|].
  destruct r as [|x r]; [exfalso; apply (H []); [left|]; reflexivity|].
  destruct IH as [xs [E1 E2]]; [intros; apply H; right; assumption|].
  exists (x :: xs). simpl. rewrite E1. split; [reflexivity|]. rewrite E2. reflexivity.
Qed.

Lemma zip_rows_spec {A} (fuel k : nat) (rows : list (list A)) :
  rows <> [] -> (forall r, In r rows -> (k <= List.length r)%nat) ->
  (exists r, In r rows /\ List.length r = k) -> (k <= fuel)%nat ->
  List.length (zip_rows fuel rows) = k
  /\ forall i, (i < k)%nat -> exists col, nth_error (zip_rows fuel rows) i = Some col
                 /\ map Some col = map (fun r => nth_error r i) rows.
Proof.
  revert k rows. induction fuel as [|f IH]; intros k rows Hne Hk [r0 [Hr0 Hl0]] Hf.
  - split; [simpl; lia|intros; lia].
  - destruct k as [|k].
    + simpl. rewrite zip_step_none; [split; [reflexivity|intros; lia]|].
      destruct r0; [exact Hr0|discriminate].
    + destruct (zip_step_some rows) as [xs [E1 E2]].
      { intros r Hr. specialize (Hk r Hr). destruct r; [simpl in Hk; lia|discriminate]. }
      simpl. rewrite E1.
      destruct (IH k (map (@tl A) rows)) as [L1 L2].
      * destruct rows; [contradiction|discriminate].
      * intros r Hr. apply in_map_iff in Hr as [r' [<- Hr']]. specialize (Hk r' Hr').
        destruct r'; simpl in *; lia.
      * exists (tl r0). split; [apply in_map, Hr0|]. destruct r0; simpl in *; lia.
      * lia.
      * split; [simpl; rewrite L1; reflexivity|].
        intros [|i] Hi; [exists xs; split; [reflexivity|exact E2]|].
        destruct (L2 i ltac:(lia)) as [col [C1 C2]]. exists col. split; [exact C1|].
        rewrite C2, map_map. apply map_ext. intros r. destruct r; [destruct i|]; reflexivity.
Qed.

Lemma transpose_entries {A} (l : list (list A)) (k : nat) :
  l <> [] -> (forall r, In r l -> (k <= List.length r)%nat) ->
  (exists r, In r l /\ List.length r = k) ->
  List.length (list_transpose l) = k
  /\ (forall i, (i < k)%nat -> exists col, nth_error (list_transpose l) i = Some col
                                /\ List.length col = List.length l)
  /\ (forall i j, (i < k)%nat -> entry (list_transpose l) i j = entry l j i).
Proof.
  intros Hne Hk Hr. destruct l as [|r0 rs]; [contradiction|].
  destruct (zip_rows_spec (List.length r0) k (r0 :: rs) Hne Hk Hr (Hk r0 (or_introl eq_refl)))
    as [L1 L2].
  unfold list_transpose. split; [exact L1|split].
  - intros i Hi. destruct (L2 i Hi) as [col [C1 C2]]. exists col. split; [exact C1|].
    apply (f_equal (@List.length _)) in C2. rewrite !length_map in C2. exact C2.
  - intros i j Hi. destruct (L2 i Hi) as [col [C1 C2]]. unfold entry. rewrite C1.
    apply (f_equal (fun m => nth_error m j)) in C2. rewrite !nth_error_map in C2.
    destruct (nth_error col j) eqn:E1; destruct (nth_error (r0 :: rs) j) eqn:E2;
      simpl in C2; congruence.
Qed.

(** X4: for a non-empty list of rows whose shortest row has [k] items,
    [list_transpose] has [k] rows, each as long as the number of input
    rows, and entry [(i, j)] of the result is entry [(j, i)] of the input. *)
Theorem list_transpose_entries {A} (l : list (list A)) (k : nat) :
  l <> [] -> (forall r, In r l -> (k <= List.length r)%nat) ->
  (exists r, In r l /\ List.length r = k) ->
  List.length (list_transpose l) = k
  /\ (forall i, (i < k)%nat -> exists col, nth_error (list_transpose l) i = Some col
                                /\ List.length col = List.length l)
  /\ (forall i j, (i < k)%nat -> entry (list_transpose l) i j = entry l j i).
Proof. intros H1 H2 H3. exact (transpose_entries l k H1 H2 H3). Qed.

Lemma entries_ext {A} (a b : list (list A)) :
  List.length a = List.length b -> (forall i j, entry a i j = entry b i j) -> a = b.
Proof.
  intros Hl He. apply nth_error_ext. intros i.
  destruct (nth_error a i) as [ra|] eqn:Ea; destruct (nth_error b i) as [rb|] eqn:Eb.
  - f_equal. apply nth_error_ext. intros j. specialize (He i j). unfold entry in He.
    rewrite Ea, Eb in He. exact He.
  - apply nth_error_None in Eb. assert (i < List.length a)%nat by (apply nth_error_Some; congruence). lia.
  - apply nth_error_None in Ea. assert (i < List.length b)%nat by (apply nth_error_Some; congruence). lia.
  - reflexivity.
Qed.

(** X5: [list_transpose] is an involution on non-empty rectangular lists of
    non-empty rows. *)
Theorem list_transpose_involutive {A} (l : list (list A)) (n : nat) :
  l <> [] -> (1 <= n)%nat -> (forall r, In r l -> List.length r = n) ->
  list_transpose (list_transpose l) = l.
Proof.
  intros Hne Hn Hr.
  assert (Hex : exists r, In r l /\ List.length r = n).
  { destruct l as [|r rs]; [contradiction|]. exists r. split; [left; reflexivity|apply Hr; left; reflexivity]. }
  destruct (transpose_entries l n Hne ltac:(intros r H; rewrite (Hr r H); lia) Hex)
    as [L1 [L2 L3]].
  set (T := list_transpose l) in *.
  assert (HT : T <> []) by (intro E; rewrite E in L1; simpl in L1; lia).
  assert (HcT : forall c, In c T -> List.length c = List.length l).
  { intros c Hc. apply In_nth_error in Hc as [i Hi].
    assert (i < n)%nat by (rewrite <- L1; apply nth_error_Some; congruence).
    destruct (L2 i H) as [col [C1 C2]]. congruence. }
  assert (Hexc : exists c, In c T /\ List.length c = List.length l).
  { destruct (L2 0%nat ltac:(lia)) as [col [C1 C2]]. exists col. split; [|exact C2].
    apply nth_error_In with 0%nat. exact C1. }
  destruct (transpose_entries T (List.length l) HT ltac:(intros c H; rewrite (HcT c H); lia) Hexc)
    as [M1 [_ M3]].
  apply entries_ext; [exact M1|]. intros i j.
  destruct (Nat.lt_ge_cases i (List.length l)) as [Hi|Hi].
  - rewrite (M3 i j Hi). destruct (Nat.lt_ge_cases j n) as [Hj|Hj].
    + apply (L3 j i Hj).
    + unfold entry. replace (nth_error T j) with (@None (list A))
        by (symmetry; apply nth_error_None; lia).
      destruct (nth_error l i) as [r|] eqn:E; [|reflexivity].
      symmetry. apply nth_error_None. rewrite (Hr r (nth_error_In _ _ E)). exact Hj.
  - unfold entry. replace (nth_error (list_transpose T) i) with (@None (list A))
      by (symmetry; apply nth_error_None; lia).
    replace (nth_error l i) with (@None (list A)) by (symmetry; apply nth_error_None; lia).
    reflexivity.
Qed.

Lemma n_iters_facts (n nb : Z) :
  0 < nb ->
  let x := Z.max 0 n in let c := Z.of_nat (n_iters n nb) in
  x <= nb * c /\ nb * (c - 1) < x /\ 0 <= c /\ (x mod nb = 0 -> nb * c = x).
Proof.
  intros Hnb x c. unfold c, n_iters. fold x.
  assert (Hx : 0 <= x) by (unfold x; lia).
  pose proof (Z.div_mod (x + nb - 1) nb ltac:(lia)) as Hd.
  pose proof (Z.mod_pos_bound (x + nb - 1) nb Hnb) as Hm.
  assert (Hq : 0 <= (x + nb - 1) / nb) by (apply Z.div_pos; lia).
  rewrite Z2Nat.id by exact Hq.
  split; [lia|split; [lia|split; [lia|]]].
  intro H0. pose proof (Z.div_mod x nb ltac:(lia)) as Hd2. rewrite H0, Z.add_0_r in Hd2.
  rewrite Hd2. replace (nb * (x / nb) + nb - 1) with ((nb - 1) + (x / nb) * nb) by lia.
  rewrite Z.div_add by lia. rewrite (Z.div_small (nb - 1) nb) by lia. lia.
Qed.

Lemma ceil_unique (s d a b : Z) :
  0 < s -> d <= s * a -> s * (a - 1) < d -> d <= s * b -> s * (b - 1) < d -> a = b.
Proof.
  intros Hs H1 H2 H3 H4.
  destruct (Z.lt_trichotomy a b) as [Hab|[Hab|Hab]]; [exfalso|exact Hab|exfalso].
  - assert (s * a <= s * (b - 1)) by (apply Z.mul_le_mono_nonneg_l; lia). lia.
  - assert (s * b <= s * (a - 1)) by (apply Z.mul_le_mono_nonneg_l; lia). lia.
Qed.

Lemma range_pos_spec (fuel : nat) (i stop step : Z) :
  0 < step -> (Z.to_nat (stop - i) <= fuel)%nat ->
  range_pos fuel i stop step = map (fun k => i + Z.of_nat k * step) (seq 0 (n_iters (stop - i) step)).
Proof.
  revert i. induction fuel as [|f IH]; intros i Hs Hf; simpl.
  - destruct (n_iters_facts (stop - i) step Hs) as [_ [H2 [H3 _]]].
    replace (n_iters (stop - i) step) with 0%nat by nia. reflexivity.
  - destruct (i <? stop) eqn:E.
    + apply Z.ltb_lt in E. rewrite (IH (i + step)) by lia.
      assert (Hc : n_iters (stop - i) step = S (n_iters (stop - (i + step)) step)).
      { destruct (n_iters_facts (stop - i) step Hs) as [A1 [A2 [A3 _]]].
        destruct (n_iters_facts (stop - (i + step)) step Hs) as [B1 [B2 [B3 _]]].
        set (c1 := n_iters (stop - i) step) in *. set (c2 := n_iters (stop - (i + step)) step) in *.
        destruct (Z.le_gt_cases (stop - i) step) as [Hle|Hgt].
        - replace (Z.max 0 (stop - (i + step))) with 0 in * by lia.
          assert (Z.of_nat c2 = 0) by nia.
          assert (Z.of_nat c1 = 1) by (apply (ceil_unique step (Z.max 0 (stop - i))); lia).
          lia.
        - replace (Z.max 0 (stop - (i + step))) with (stop - i - step) in * by lia.
          assert (Z.of_nat c1 = Z.of_nat c2 + 1)
            by (apply (ceil_unique step (Z.max 0 (stop - i))); lia).
          lia. }
      rewrite Hc. cbn [seq map]. rewrite <- seq_shift, map_map. f_equal; [lia|].
      apply map_ext. intro k. lia.
    + apply Z.ltb_ge in E.
      destruct (n_iters_facts (stop - i) step Hs) as [_ [H2 [H3 _]]].
      replace (n_iters (stop - i) step) with 0%nat by nia. reflexivity.
Qed.

Lemma iter_loop_free {A} (d0 : list A) single nb mb nbs is :
  (forall m, mb = Some m -> Z.of_nat (List.length is) + nbs <= m) ->
  iter_loop d0 single nb mb nbs is =
  (map (fun i => if single then Slice (py_slice d0 i (i + nb)) else Gen) is, false).
Proof.
  revert nbs; induction is as [|i is IH]; intros nbs H; [reflexivity|]. simpl.
  replace (match mb with Some m => m <=? nbs | None => false end) with false.
  - rewrite IH; [reflexivity|]. intros m Hm. specialize (H m Hm). cbn [List.length] in H. lia.
  - destruct mb as [m|]; [|reflexivity]. specialize (H m eq_refl). cbn [List.length] in H.
    symmetry. apply Z.leb_gt. lia.
Qed.

Lemma iter_count_shape (n0 nb : Z) tr mb :
  0 <= n0 -> 0 < nb ->
  iter_count n0 nb tr mb <= n0
  /\ (iter_count n0 nb tr mb = n0 \/ iter_count n0 nb tr mb mod nb = 0)
  /\ (tr = true -> iter_count n0 nb tr mb mod nb = 0)
  /\ (forall m, mb = Some m -> iter_count n0 nb tr mb <= m * nb).
Proof.
  intros H0 Hnb. unfold iter_count.
  set (n1 := if tr then n0 / nb * nb else n0).
  assert (N1 : n1 <= n0 /\ (n1 = n0 \/ n1 mod nb = 0) /\ (tr = true -> n1 mod nb = 0)).
  { unfold n1. destruct tr.
    - assert ((n0 / nb) * nb <= n0) by (rewrite Z.mul_comm; apply Z.mul_div_le; lia).
      assert (((n0 / nb) * nb) mod nb = 0) by apply Z_mod_mult.
      repeat split; auto.
    - repeat split; [lia|left; reflexivity|discriminate]. }
  destruct N1 as [N1 [N2 N3]].
  destruct mb as [m|].
  - assert (M : (m * nb) mod nb = 0) by apply Z_mod_mult.
    destruct (Z.min_spec n1 (m * nb)) as [[_ E]|[_ E]]; rewrite E.
    + repeat split; auto. intros m' Hm. injection Hm as <-. lia.
    + repeat split; [lia|right; exact M|intros; exact M|]. intros m' Hm. injection Hm as <-. lia.
  - repeat split; auto. discriminate.
Qed.

Lemma firstn_app_skipn {A} (x y : nat) (l : list A) :
  firstn x l ++ firstn y (skipn x l) = firstn (x + y) l.
Proof.
  revert l; induction x as [|x IH]; intro l; [reflexivity|].
  destruct l as [|a l]; simpl; [destruct y; reflexivity|]. f_equal. apply IH.
Qed.

Lemma concat_batch_slices {A} (d : list A) (nb : Z) (c : nat) :
  0 < nb ->
  List.concat (batch_slices d nb c) = firstn (Z.to_nat (Z.min (Z.of_nat c * nb) (py_len d))) d.
Proof.
  intro Hnb. unfold batch_slices. induction c as [|c IH].
  - simpl. rewrite Z.min_l by (pose proof (py_len_nonneg d); lia). reflexivity.
  - rewrite seq_S, map_app, List.concat_app, IH. cbn [map List.concat Nat.add]. rewrite app_nil_r.
    pose proof (py_len_nonneg d) as Hl.
    rewrite slice_nonneg_eq by lia.
    rewrite firstn_app_skipn. f_equal. rewrite Nat2Z.inj_succ.
    destruct (Z.min_spec (Z.of_nat c * nb) (py_len d)) as [[H1 ->]|[H1 ->]];
      destruct (Z.min_spec (Z.of_nat c * nb + nb) (py_len d)) as [[H2 ->]|[H2 ->]];
      destruct (Z.min_spec (Z.succ (Z.of_nat c) * nb) (py_len d)) as [[H3 ->]|[H3 ->]]; lia.
Qed.

Lemma batch_slices_full {A} (d : list A) (nb : Z) (c : nat) :
  0 < nb -> Z.of_nat c * nb <= py_len d ->
  Forall (fun b => py_len b = nb) (batch_slices d nb c).
Proof.
  intros Hnb Hc. apply Forall_forall. intros b Hb. unfold batch_slices in Hb.
  apply in_map_iff in Hb as [k [<- Hk]]. apply in_seq in Hk.
  rewrite py_slice_len; nia.
Qed.

(** X6: [iter_data] with no data raises [IndexError]; otherwise it yields
    [ceil(n / n_batch)] items for the bound [n] it computes, at most
    [max_batches] of them, and never reaches its [raise StopIteration]. *)
Theorem iter_data_batches {A} (d0 : list A) (rest : list (list A)) (nb : positive) tr mb :
  iter_data (@nil (list A)) nb tr mb = Err IndexError
  /\ exists ys, iter_data (d0 :: rest) nb tr mb = Ok (ys, false)
     /\ List.length ys = n_iters (iter_count (py_len d0) (Z.pos nb) tr mb) (Z.pos nb)
     /\ (forall m, mb = Some m -> Z.of_nat (List.length ys) <= Z.max 0 m).
Proof.
  split; [reflexivity|].
  set (n := iter_count (py_len d0) (Z.pos nb) tr mb).
  pose proof (py_len_nonneg d0) as Hl.
  destruct (iter_count_shape (py_len d0) (Z.pos nb) tr mb Hl ltac:(lia)) as [S1 [S2 [S3 S4]]].
  fold n in S1, S2, S3, S4.
  destruct (n_iters_facts n (Z.pos nb) ltac:(lia)) as [F1 [F2 [F3 F4]]].
  assert (Hr : range_pos (Z.to_nat n) 0 n (Z.pos nb)
               = map (fun k => 0 + Z.of_nat k * Z.pos nb) (seq 0 (n_iters n (Z.pos nb)))).
  { rewrite range_pos_spec by lia. rewrite Z.sub_0_r. reflexivity. }
  assert (Hm : forall m, mb = Some m -> Z.of_nat (n_iters n (Z.pos nb)) <= Z.max 0 m).
  { intros m Hm. specialize (S4 m Hm).
    destruct (Z.le_gt_cases m 0).
    - assert (Z.max 0 n = 0) by nia. rewrite H0 in F2. nia.
    - assert (Z.pos nb * (Z.of_nat (n_iters n (Z.pos nb)) - 1) < Z.pos nb * m) by nia.
      assert (Z.of_nat (n_iters n (Z.pos nb)) - 1 < m) by nia. lia. }
  unfold iter_data. replace (py_get (d0 :: rest) 0) with (Ok d0 : res (list A)) by reflexivity. cbn [bind]. fold n.
  rewrite Hr. destruct (n_iters n (Z.pos nb)) as [|c] eqn:Ec.
  - exists []. split; [reflexivity|]. split; [reflexivity|]. intros m _. simpl. lia.
  - rewrite iter_loop_free.
    + eexists. split; [reflexivity|]. rewrite !length_map, length_seq. split; [reflexivity|].
      intros m E. apply Hm, E.
    + intros m E. rewrite length_map, length_seq. specialize (Hm m E). specialize (S4 m E).
      assert (0 < n) by nia. assert (0 < m) by nia. lia.
Qed.

(** X7: with a single data list [d], the batches yielded by [iter_data]
    concatenate to the first [n] items of [d]; every batch but the last
    has [n_batch] items, and all of them do with [truncate]. *)
Theorem iter_data_single {A} (d : list A) (nb : positive) tr mb :
  let n := iter_count (py_len d) (Z.pos nb) tr mb in
  exists bs, iter_data [d] nb tr mb = Ok (map Slice bs, false)
    /\ List.concat bs = firstn (Z.to_nat n) d
    /\ Forall (fun b => py_len b = Z.pos nb) (removelast bs)
    /\ (tr = true -> Forall (fun b => py_len b = Z.pos nb) bs).
Proof.
  intro n.
  pose proof (py_len_nonneg d) as Hl.
  destruct (iter_count_shape (py_len d) (Z.pos nb) tr mb Hl ltac:(lia)) as [S1 [S2 [S3 S4]]].
  fold n in S1, S2, S3, S4.
  destruct (n_iters_facts n (Z.pos nb) ltac:(lia)) as [F1 [F2 [F3 F4]]].
  set (c := n_iters n (Z.pos nb)) in *.
  assert (Hr : range_pos (Z.to_nat n) 0 n (Z.pos nb)
               = map (fun k => 0 + Z.of_nat k * Z.pos nb) (seq 0 c)).
  { rewrite range_pos_spec by lia. rewrite Z.sub_0_r. reflexivity. }
  exists (batch_slices d (Z.pos nb) c).
  assert (Hmin : Z.min (Z.of_nat c * Z.pos nb) (py_len d) = Z.max 0 n).
  { destruct (Z.le_gt_cases n 0).
    - assert (Z.of_nat c = 0) by nia. rewrite H0. lia.
    - destruct S2 as [E|E].
      + rewrite Z.max_r in F1 by lia. lia.
      + rewrite Z.max_r in F4 by lia. specialize (F4 E). lia. }
  split; [|split; [|split]].
  - unfold iter_data. replace (py_get [d] 0) with (Ok d : res (list A)) by reflexivity.
    cbn [bind]. fold n. rewrite Hr.
    destruct c as [|c'] eqn:Ec; [reflexivity|].
    rewrite iter_loop_free.
    + unfold batch_slices. rewrite !map_map. do 2 f_equal.
    + intros m E. rewrite length_map, length_seq. specialize (S4 m E).
      assert (0 < n) by nia. assert (0 < m) by nia.
      assert (Z.pos nb * (Z.of_nat (S c') - 1) < Z.pos nb * m) by nia.
      assert (Z.of_nat (S c') - 1 < m) by nia. lia.
  - rewrite concat_batch_slices by lia. rewrite Hmin. f_equal. lia.
  - destruct c as [|c']; [constructor|].
    unfold batch_slices. rewrite seq_S, map_app. cbn [map]. rewrite removelast_last.
    apply batch_slices_full; lia.
  - intro Ht. specialize (S3 Ht). apply batch_slices_full; [lia|].
    assert (Z.max 0 n mod Z.pos nb = 0).
    { destruct (Z.le_gt_cases n 0); [rewrite Z.max_l by lia; reflexivity|].
      rewrite Z.max_r by lia. exact S3. }
    specialize (F4 H). lia.
Qed.

(** ** [iob_precedes] *)

(** X8: [iob_precedes] never falls off its end: it returns a pair or
    raises, never [None]. *)
Theorem iob_precedes_never_falls_through (left : option str) (right pad_token : str) :
  iob_precedes left right pad_token <> Ok None.
Proof.
  unfold iob_precedes.
  destruct (_ && _); [discriminate|].
  destruct (split_dash right) as [[rl rb]|]; [|discriminate].
  destruct left as [l|]; [|destruct (iob_mapping rl); discriminate].
  destruct (negb (has_dash l)); [destruct (iob_mapping rl); discriminate|].
  destruct (split_dash l) as [[ll lb]|]; [|discriminate].
  destruct (str_eqb lb rb) eqn:E; cbn [negb].
  - apply str_eqb_true in E. subst lb. rewrite py_in_refl. destruct (iob_mapping rl); discriminate.
  - destruct (iob_mapping rl); discriminate.
Qed.

(** X9: [iob_precedes] answers [join = True] only for [left = right =
    pad_token] (with label [pad_token]) or for two labels [<loc>-<base>]
    with the same [base] (with label [IE-<base>] or [<base>]); in
    particular never for [left = None]. *)
Theorem iob_precedes_join_cases (left : option str) (right pad_token lab : str) :
  iob_precedes left right pad_token = Ok (Some (true, lab)) ->
  (left = Some right /\ right = pad_token /\ lab = pad_token)
  \/ exists l ll rl base, left = Some l /\ split_dash l = Some (ll, base)
                          /\ split_dash right = Some (rl, base)
                          /\ (lab = lit "IE-" ++ base \/ lab = base).
Proof.
  unfold iob_precedes. intro H.
  destruct left as [l|].
  2:{ exfalso. cbn [andb] in H. destruct (split_dash right) as [[rl rb]|]; [|discriminate].
      destruct (iob_mapping rl); discriminate. }
  destruct (str_eqb l right && str_eqb right pad_token) eqn:Ep.
  { apply andb_true_iff in Ep as [E1 E2]. apply str_eqb_true in E1, E2. subst.
    injection H as <-. left; auto. }
  destruct (split_dash right) as [[rl rb]|] eqn:Er; [|discriminate].
  destruct (negb (has_dash l)); [destruct (iob_mapping rl); discriminate|].
  destruct (split_dash l) as [[ll lb]|] eqn:El; [|discriminate].
  destruct (str_eqb lb rb) eqn:E; cbn [negb] in H.
  - apply str_eqb_true in E. subst lb. rewrite py_in_refl in H.
    unfold iob_mapping in H.
    right. exists l, ll, rl, rb. repeat split; try reflexivity; try assumption.
    destruct (str_eqb rl (lit "B")); [injection H as <-; left; reflexivity|].
    destruct (str_eqb rl (lit "I")); [injection H as <-; left; reflexivity|].
    destruct (str_eqb rl (lit "E")); [injection H as <-; right; reflexivity|discriminate].
  - destruct (iob_mapping rl); discriminate.
Qed.

(** ** [finetune_to_indico_sequence] *)

Lemma py_get_in {A} (l : list A) (i : Z) (x : A) : py_get l i = Ok x -> In x l.
Proof.
  unfold py_get. destruct (_ && _); [|discriminate].
  destruct (nth_error l _) eqn:E; [|discriminate]. intro H; injection H as <-.
  eapply nth_error_In; exact E.
Qed.

Lemma round_tokens_in tokens si ei as_ ae si' ei' as' ae' :
  round_tokens tokens si ei as_ ae = Ok (si', ei', as', ae') ->
  In as' (token_starts tokens) /\ In ae' (token_ends tokens).
Proof.
  unfold round_tokens. intro H.
  destruct (adv_start _ _ _ _) as [s1|]; cbn [bind] in H; [|discriminate].
  destruct (py_get (token_starts tokens) _) as [a1|] eqn:E1; cbn [bind] in H; [|discriminate].
  destruct (adv_end _ _ _ _) as [e1|]; cbn [bind] in H; [|discriminate].
  destruct (py_get (token_ends tokens) _) as [a2|] eqn:E2; cbn [bind] in H; [|discriminate].
  injection H as <- <- <- <-. split; eapply py_get_in; eassumption.
Qed.

Lemma scan_pop none_value iob label items nl0 ras nl ras' anns :
  scan none_value iob label items nl0 ras = Ok (nl, ras', anns) ->
  pop_one items anns /\ (iob = false -> nl = nl0 \/ nl = Some label).
Proof.
  revert nl0 nl ras' anns; induction items as [|item rest IH]; intros nl0 nl ras' anns H;
    cbn [scan] in H.
  - injection H as <- <- <-. split; [left; reflexivity|auto].
  - destruct (join_of none_value iob (a_label item) label) as [[j l']|] eqn:Ej;
      cbn [bind] in H; [|discriminate].
    assert (Hl' : iob = false -> l' = label).
    { intro Hi. subst iob. cbn in Ej. injection Ej as _ <-. reflexivity. }
    destruct (j && _).
    + injection H as <- <- <-. split.
      * right. exists [], item, rest. split; reflexivity.
      * intro Hi. right. rewrite (Hl' Hi). reflexivity.
    + destruct (scan none_value iob label rest (Some l') ras) as [[[nl1 r1] a1]|] eqn:Es;
        cbn [bind] in H; [|discriminate].
      injection H as <- <- <-. destruct (IH _ _ _ _ Es) as [[E|[pre [x [post [E1 E2]]]]] Hn].
      * split; [left; subst; reflexivity|].
        intro Hi. right. destruct (Hn Hi) as [->| ->]; [rewrite (Hl' Hi)|]; reflexivity.
      * split; [right; exists (item :: pre), x, post; subst; split; reflexivity|].
        intro Hi. right. destruct (Hn Hi) as [->| ->]; [rewrite (Hl' Hi)|]; reflexivity.
Qed.

Lemma label_step_shape raw_text tokens none_value sp iob ml sub st label st' :
  label_step raw_text tokens none_value sp iob ml sub st label = Ok st' ->
  exists anns, pop_one (doc_anns st) anns
  /\ ((doc_anns st' = anns /\ ranges st' = ranges st)
      \/ exists a, doc_anns st' = anns ++ [a]
                   /\ ranges st' = ranges st ++ [(a_start a, a_end a, label)]
                   /\ new_ann raw_text tokens none_value sp iob label (ranges st) a).
Proof.
  unfold label_step. intro H.
  destruct (str_eqb label none_value) eqn:En; cbn [negb] in H.
  - cbn [bind] in H.
    destruct (if iob && _ then _ else _) as [nl|]; cbn [bind] in H; [|discriminate].
    exists (doc_anns st). split; [left; reflexivity|].
    destruct (_ =? -1); [injection H as <-; left; split; reflexivity|].
    destruct (if negb sp && _ then _ else _) as [[[[si ei] as_] ae]|]; cbn [bind] in H;
      [|discriminate].
    injection H as <-. left; split; reflexivity.
  - destruct (scan none_value iob label (doc_anns st) None _) as [[[nl0 ras] anns]|] eqn:Es;
      cbn [bind] in H; [|discriminate].
    destruct (scan_pop _ _ _ _ _ _ _ _ _ Es) as [Hpop Hnl].
    destruct (if iob && _ then _ else _) as [nl|] eqn:Enl; cbn [bind] in H; [|discriminate].
    exists anns. split; [exact Hpop|].
    destruct (ras =? -1); [injection H as <-; left; split; reflexivity|].
    destruct (if negb sp && _ then _ else _) as [[[[si ei] as_] ae]|] eqn:Er; cbn [bind] in H;
      [|discriminate].
    destruct (triple_mem (as_, ae, label) (ranges st)) eqn:Et;
      injection H as <-; [left; split; reflexivity|].
    right. eexists. split; [reflexivity|]. split; [reflexivity|].
    cbn [a_start a_end a_text a_label]. split; [exact Et|].
    split; [intro E; subst; rewrite str_eqb_refl in En; discriminate|].
    split; [reflexivity|]. split.
    + intro Hi. subst iob. cbn [andb] in Enl. injection Enl as <-.
      apply (py_or_label nl0 None label); [destruct (Hnl eq_refl) as [->| ->]; auto|reflexivity].
    + intros Hs Hi. subst sp iob. cbn [negb andb orb] in Er.
      eapply round_tokens_in; exact Er.
Qed.

Lemma pop_one_in {A} (l l' : list A) x : pop_one l l' -> In x l' -> In x l.
Proof.
  intros [->|[pre [y [post [-> ->]]]]]; [auto|]. rewrite !in_app_iff. simpl. tauto.
Qed.

Lemma pop_one_nodup {A B} (f : A -> B) (l l' : list A) :
  pop_one l l' -> NoDup (map f l) -> NoDup (map f l').
Proof.
  intros [->|[pre [y [post [-> ->]]]]]; [auto|]. rewrite !map_app. cbn [map].
  apply NoDup_remove_1.
Qed.

Lemma triple_eqb_refl x : triple_eqb x x = true.
Proof.
  destruct x as [[a b] c]. unfold triple_eqb. rewrite !Z.eqb_refl, str_eqb_refl. reflexivity.
Qed.

Lemma triple_mem_app x l y : triple_mem x (l ++ [y]) = triple_mem x l || triple_eqb x y.
Proof. unfold triple_mem. rewrite existsb_app. simpl. rewrite orb_false_r. reflexivity. Qed.

Lemma label_step_inv raw_text tokens none_value sp iob ml sub st label st' L :
  In label L -> f2i_inv raw_text tokens none_value sp iob L st ->
  label_step raw_text tokens none_value sp iob ml sub st label = Ok st' ->
  f2i_inv raw_text tokens none_value sp iob L st'.
Proof.
  intros HL [I1 I2] H.
  destruct (label_step_shape _ _ _ _ _ _ _ _ _ _ H) as [anns [Hp [[D R]|[a [D [R Ha]]]]]].
  - split.
    + intros b Hb. rewrite D in Hb. apply I1. eapply pop_one_in; eassumption.
    + intro Hi. destruct (I2 Hi) as [N M]. split.
      * rewrite D. eapply pop_one_nodup; eassumption.
      * intros b Hb. rewrite R. rewrite D in Hb. apply M. eapply pop_one_in; eassumption.
  - destruct Ha as [Ht [Hn [Hx [Hl Htok]]]]. split.
    + intros b Hb. rewrite D in Hb. apply in_app_or in Hb as [Hb|[<-|[]]].
      * apply I1. eapply pop_one_in; eassumption.
      * split; [exact Hx|]. split; [|exact Htok].
        intro Hi. rewrite (Hl Hi). split; assumption.
    + intro Hi. destruct (I2 Hi) as [N M]. rewrite D, R.
      assert (Hta : triple a = (a_start a, a_end a, label)) by (unfold triple; rewrite (Hl Hi); reflexivity).
      split.
      * rewrite map_app. cbn [map]. apply NoDup_app.
        -- eapply pop_one_nodup; eassumption.
        -- repeat constructor. intros [].
        -- intros x Hx1 Hx2. destruct Hx2 as [<-|[]]. apply in_map_iff in Hx1 as [b [Eb Hb]].
           assert (Hm : triple_mem (triple b) (ranges st) = true)
             by (apply M; eapply pop_one_in; eassumption).
           rewrite Eb, Hta, Ht in Hm. discriminate.
      * intros b Hb. rewrite triple_mem_app. apply in_app_or in Hb as [Hb|[<-|[]]].
        -- rewrite M; [reflexivity|]. eapply pop_one_in; eassumption.
        -- rewrite Hta, triple_eqb_refl, orb_true_r. reflexivity.
Qed.

Lemma labels_loop_inv raw_text tokens none_value sp iob ml sub L : forall ls st st',
  incl ls L -> f2i_inv raw_text tokens none_value sp iob L st ->
  labels_loop raw_text tokens none_value sp iob ml sub st ls = Ok st' ->
  f2i_inv raw_text tokens none_value sp iob L st'.
Proof.
  induction ls as [|l ls IH]; intros st st' Hi Hv H; cbn [labels_loop] in H.
  - injection H as <-. exact Hv.
  - destruct (label_step _ _ _ _ _ _ _ _ _) as [st1|] eqn:E; cbn [bind] in H; [|discriminate].
    apply (IH st1 st'); [intros x Hx; apply Hi; right; exact Hx| |exact H].
    eapply label_step_inv; [apply Hi; left; reflexivity|exact Hv|exact E].
Qed.

Lemma segs_loop_inv raw_text tokens none_value sp iob L : forall segs st st',
  (forall s r, In (s, r) segs -> incl (rawlabel_list r) L) ->
  f2i_inv raw_text tokens none_value sp iob L st ->
  segs_loop raw_text tokens none_value sp iob st segs = Ok st' ->
  f2i_inv raw_text tokens none_value sp iob L st'.
Proof.
  induction segs as [|[s r] segs IH]; intros st st' Hi Hv H; cbn [segs_loop] in H.
  - injection H as <-. exact Hv.
  - destruct (seg_step _ _ _ _ _ _ _) as [st1|] eqn:E; cbn [bind] in H; [|discriminate].
    apply (IH st1 st'); [intros s' r' Hx; eapply Hi; right; exact Hx| |exact H].
    specialize (Hi s r (or_introl eq_refl)).
    destruct r as [l|ls]; cbn [seg_step rawlabel_list] in E, Hi; eapply labels_loop_inv; eassumption.
Qed.

Lemma f2i_doc_inv raw_text tokens none_value sp iob doc_seq label_seq st :
  segs_loop raw_text tokens none_value sp iob init_f2i (combine doc_seq label_seq) = Ok st ->
  f2i_inv raw_text tokens none_value sp iob (labels_of label_seq) st.
Proof.
  intro H. eapply segs_loop_inv; [|split|exact H].
  - intros s r Hin. apply in_combine_r in Hin. intros x Hx. unfold labels_of.
    apply in_flat_map. exists r. auto.
  - intros a [].
  - intros _. split; [constructor|intros a []].
Qed.

Lemma strip_ie_fields a :
  a_start (strip_ie a) = a_start a /\ a_end (strip_ie a) = a_end a /\ a_text (strip_ie a) = a_text a.
Proof.
  unfold strip_ie. destruct (is_iob_tagged _); [|auto].
  destruct (split_dash _) as [[x y]|]; auto.
Qed.

(** X10: the annotations of a document produced by
    [finetune_to_indico_sequence] are sorted by [start], and the [text] of
    each is [raw_text[start:end]]. *)
Theorem f2i_doc_sorted_text raw_text tokens none_value sp iob doc_seq label_seq out w :
  finetune_to_indico_doc raw_text tokens none_value sp iob doc_seq label_seq = Ok (out, w) ->
  StronglySorted (fun a b => a_start a <= a_start b) out
  /\ Forall (fun a => a_text a = py_slice raw_text (a_start a) (a_end a)) out.
Proof.
  unfold finetune_to_indico_doc. intro H.
  destruct (segs_loop _ _ _ _ _ _ _) as [st|] eqn:E; cbn [bind] in H; [|discriminate].
  injection H as <- _. split; [apply sort_by_sorted|].
  destruct (f2i_doc_inv _ _ _ _ _ _ _ _ E) as [I1 _].
  eapply Permutation_Forall; [apply sort_by_perm|]. apply Forall_forall.
  destruct iob; intros a Ha.
  - apply in_map_iff in Ha as [b [<- Hb]]. destruct (strip_ie_fields b) as [-> [-> ->]].
    apply (I1 b Hb).
  - apply (I1 a Ha).
Qed.

(** X11: without [iob], every annotation produced for a document carries a
    label of the document's segment labels other than [none_value], and no
    two annotations have the same [(start, end, label)]. *)
Theorem f2i_doc_labels raw_text tokens none_value sp doc_seq label_seq out w :
  finetune_to_indico_doc raw_text tokens none_value sp false doc_seq label_seq = Ok (out, w) ->
  NoDup (map triple out)
  /\ Forall (fun a => a_label a <> none_value /\ In (a_label a) (labels_of label_seq)) out.
Proof.
  unfold finetune_to_indico_doc. intro H.
  destruct (segs_loop _ _ _ _ _ _ _) as [st|] eqn:E; cbn [bind] in H; [|discriminate].
  injection H as <- _.
  destruct (f2i_doc_inv _ _ _ _ _ _ _ _ E) as [I1 I2]. split.
  - eapply Permutation_NoDup; [apply Permutation_map, sort_by_perm|]. apply (I2 eq_refl).
  - eapply Permutation_Forall; [apply sort_by_perm|]. apply Forall_forall.
    intros a Ha. apply (I1 a Ha). reflexivity.
Qed.

(** X12: without [subtoken_predictions] and without [iob], every annotation
    starts at the start of a token and ends at the end of a token. *)
Theorem f2i_doc_token_bounds raw_text tokens none_value doc_seq label_seq out w :
  finetune_to_indico_doc raw_text tokens none_value false false doc_seq label_seq = Ok (out, w) ->
  Forall (fun a => In (a_start a) (token_starts tokens) /\ In (a_end a) (token_ends tokens)) out.
Proof.
  unfold finetune_to_indico_doc. intro H.
  destruct (segs_loop _ _ _ _ _ _ _) as [st|] eqn:E; cbn [bind] in H; [|discriminate].
  injection H as <- _.
  destruct (f2i_doc_inv _ _ _ _ _ _ _ _ E) as [I1 _].
  eapply Permutation_Forall; [apply sort_by_perm|]. apply Forall_forall.
  intros a Ha. apply (I1 a Ha); reflexivity.
Qed.

(** ** [indico_to_finetune_sequence] *)

Lemma in_firstn {A} (k : nat) (l : list A) y : In y (firstn k l) -> In y l.
Proof. intro H. rewrite <- (firstn_skipn k l). apply in_or_app. left. exact H. Qed.

Lemma in_skipn {A} (k : nat) (l : list A) y : In y (skipn k l) -> In y l.
Proof. intro H. rewrite <- (firstn_skipn k l). apply in_or_app. right. exact H. Qed.

Lemma length_set_nth {A} (k : nat) (l : list A) x :
  (k < List.length l)%nat -> List.length (firstn k l ++ x :: skipn (S k) l) = List.length l.
Proof.
  revert k; induction l as [|y l IH]; intros k Hk; cbn [List.length] in Hk; [lia|].
  destruct k as [|k]; [reflexivity|]. cbn [firstn app skipn List.length].
  cbn [skipn] in IH. rewrite IH by lia. reflexivity.
Qed.

Lemma py_set_shape {A} (l : list A) i x l' :
  py_set l i x = Ok l' -> List.length l' = List.length l /\ (forall y, In y l' -> In y l \/ y = x).
Proof.
  unfold py_set. cbv zeta. set (i' := if i <? 0 then i + py_len l else i).
  destruct (_ && _) eqn:E; [|discriminate]. intro H; injection H as H. subst l'.
  apply andb_true_iff in E as [E1 E2]. apply Z.leb_le in E1. apply Z.ltb_lt in E2.
  unfold py_len in E2. split.
  - apply length_set_nth. lia.
  - intros y Hy. apply in_app_or in Hy as [Hy|[<-|Hy]]; auto.
    + left. eapply in_firstn; exact Hy.
    + left. apply (in_skipn (S (Z.to_nat i'))); exact Hy.
Qed.

Lemma py_insert_shape {A} (l : list A) i x :
  List.length (py_insert l i x) = S (List.length l)
  /\ (forall y, In y (py_insert l i x) -> In y l \/ y = x).
Proof.
  unfold py_insert. split.
  - rewrite length_app. cbn [List.length]. rewrite Nat.add_succ_r, <- length_app, firstn_skipn.
    reflexivity.
  - intros y Hy. apply in_app_or in Hy as [Hy|[<-|Hy]]; auto.
    + left. eapply in_firstn; exact Hy.
    + left. eapply in_skipn; exact Hy.
Qed.

Lemma lab_ok_add ml none_value Ls x label x' :
  lab_ok ml none_value Ls x -> In label Ls ->
  (seglab_append x label = Ok x' \/ seglab_plus x label = Ok x') ->
  lab_ok ml none_value Ls x'.
Proof.
  intros Hx Hl Ha. destruct x as [l|ls]; [destruct Ha as [Ha|Ha]; discriminate|].
  destruct Ha as [Ha|Ha]; injection Ha as <-; destruct Hx as [Hm Hf];
    (split; [exact Hm|]); apply Forall_app; split; auto.
Qed.

Lemma py_set_labs ml none_value Ls labs i x labs' :
  Forall (lab_ok ml none_value Ls) labs -> lab_ok ml none_value Ls x ->
  py_set labs i x = Ok labs' -> Forall (lab_ok ml none_value Ls) labs' /\ List.length labs' = List.length labs.
Proof.
  intros Hf Hx H. destruct (py_set_shape _ _ _ _ H) as [Hl Hi]. split; [|exact Hl].
  rewrite Forall_forall in *. intros y Hy. destruct (Hi y Hy) as [Hy'| ->]; auto.
Qed.

Lemma py_get_ok {A} (P : A -> Prop) (l : list A) i x : Forall P l -> py_get l i = Ok x -> P x.
Proof. intros Hf H. rewrite Forall_forall in Hf. apply Hf. eapply py_get_in; exact H. Qed.

Lemma walk_inv ml none_value Ls subs label : forall fuel labs sd j labs' sd' j',
  Forall (lab_ok ml none_value Ls) labs -> In label Ls ->
  walk fuel subs labs label sd j = Ok (labs', sd', j') ->
  Forall (lab_ok ml none_value Ls) labs' /\ List.length labs' = List.length labs.
Proof.
  induction fuel as [|f IH]; intros labs sd j labs' sd' j' Hf Hl H; cbn [walk] in H; [discriminate|].
  destruct (py_get subs j) as [sj|]; cbn [bind] in H; [|discriminate].
  destruct (py_len sj <=? sd); [|injection H as <- _ _; auto].
  destruct (py_get labs j) as [lj|] eqn:E1; cbn [bind] in H; [|discriminate].
  destruct (seglab_append lj label) as [lj'|] eqn:E2; cbn [bind] in H; [|discriminate].
  destruct (py_set labs j lj') as [labs1|] eqn:E3; cbn [bind] in H; [|discriminate].
  assert (Hok : lab_ok ml none_value Ls lj')
    by (eapply lab_ok_add; [eapply py_get_ok; eassumption|exact Hl|left; exact E2]).
  destruct (py_set_labs _ _ _ _ _ _ _ Hf Hok E3) as [F1 L1].
  destruct (IH _ _ _ _ _ _ F1 Hl H) as [F2 L2]. split; [exact F2|congruence].
Qed.

Lemma filler_ok ml none_value Ls : lab_ok ml none_value Ls (filler ml none_value).
Proof. unfold filler. destruct ml; split; auto. Qed.

Lemma new_label_ok ml none_value Ls label :
  In label Ls -> lab_ok ml none_value Ls (if ml then Many [label] else One label).
Proof. intro H. destruct ml; split; auto. Qed.

Lemma ann_head_inv text tokens ml none_value sl iob Ls st a subs labs j skip s e :
  i2f_inv ml none_value Ls (subseqs st) (dlabels st) ->
  ann_head text tokens ml none_value sl iob st a = Ok (subs, labs, j, skip, s, e) ->
  i2f_inv ml none_value Ls subs labs.
Proof.
  intros [L0 F0] H. unfold ann_head in H.
  destruct (ann_bounds text tokens none_value sl iob a) as [s0 e0].
  assert (Hp : exists subs0 labs0, i2f_inv ml none_value Ls subs0 labs0 /\
            (if last_loc st <? s0
             then (subseqs st ++ [py_slice text (last_loc st) s0], dlabels st ++ [filler ml none_value])
             else (subseqs st, dlabels st)) = (subs0, labs0)).
  { destruct (last_loc st <? s0); eexists; eexists; (split; [|reflexivity]); split.
    - rewrite !length_app, L0. reflexivity.
    - apply Forall_app; split; [exact F0|constructor; [apply filler_ok|constructor]].
    - exact L0.
    - exact F0. }
  destruct Hp as [subs0 [labs0 [[L1 F1] Hp]]]. rewrite Hp in H.
  destruct (0 <? last_loc st - e0).
  - destruct (py_get subs0 (-1)) as [last_|]; cbn [bind] in H; [|discriminate].
    destruct (negb _).
    + destruct (py_set subs0 (-1) _) as [subs1|] eqn:E2; cbn [bind] in H; [|discriminate].
      destruct (py_get labs0 (-1)) as [lastlab|] eqn:E3; cbn [bind] in H; [|discriminate].
      destruct (py_get (subs1 ++ _) (-1)); cbn [bind] in H; [|discriminate].
      injection H as <- <- _ _ _ _. destruct (py_set_shape _ _ _ _ E2) as [L2 _]. split.
      * rewrite !length_app, L2, L1. reflexivity.
      * apply Forall_app; split; [exact F1|constructor; [eapply py_get_ok; eassumption|constructor]].
    + cbn [bind] in H. destruct (py_get subs0 (-1)); cbn [bind] in H; [|discriminate].
      injection H as <- <- _ _ _ _. split; assumption.
  - injection H as <- <- _ _ _ _. split; assumption.
Qed.

Lemma ann_step_inv text tokens ml none_value sl iob Ls st a st' :
  In (i_label a) Ls ->
  i2f_inv ml none_value Ls (subseqs st) (dlabels st) ->
  ann_step text tokens ml none_value sl iob st a = Ok st' ->
  i2f_inv ml none_value Ls (subseqs st') (dlabels st').
Proof.
  intros Hl Hv H. unfold ann_step in H.
  destruct (ann_head text tokens ml none_value sl iob st a)
    as [[[[[[subs labs] j] skip] s] e]|] eqn:Eh; cbn [bind] in H; [|discriminate].
  destruct (ann_head_inv _ _ _ _ _ _ _ _ _ _ _ _ _ _ _ Hv Eh) as [L1 F1].
  match type of H with bind ?m _ = _ =>
    destruct m as [[[[subs2 labs2] s2] at2]|] eqn:Er; cbn [bind] in H; [|discriminate] end.
  assert (Hv2 : i2f_inv ml none_value Ls subs2 labs2).
  { destruct (s <? last_loc st - skip); [|injection Er as <- <- _ _; split; assumption].
    destruct ml; cbn [negb] in Er; [|discriminate].
    destruct (walk _ subs labs _ _ j) as [[[labs' sd] j']|] eqn:Ew; cbn [bind] in Er; [|discriminate].
    destruct (walk_inv _ _ _ _ _ _ _ _ _ _ _ _ F1 Hl Ew) as [Fw Lw].
    match type of Er with bind ?m _ = _ =>
      destruct m as [[subs3 labs3]|] eqn:E3; cbn [bind] in Er; [|discriminate] end.
    assert (Hv3 : i2f_inv true none_value Ls subs3 labs3).
    { destruct (0 <? sd); [|injection E3 as <- <-; split; congruence].
      destruct (py_get subs j') as [sj|]; cbn [bind] in E3; [|discriminate].
      destruct (py_set subs j' _) as [subs'|] eqn:Es; cbn [bind] in E3; [|discriminate].
      destruct (py_get labs' j') as [lj|] eqn:Eg; cbn [bind] in E3; [|discriminate].
      destruct (seglab_plus lj _) as [lj'|] eqn:Ep; cbn [bind] in E3; [|discriminate].
      injection E3 as <- <-. destruct (py_set_shape _ _ _ _ Es) as [Ls' _].
      destruct (py_insert_shape subs' (j' + 1) (py_slice_from sj (- sd))) as [I1 _].
      destruct (py_insert_shape labs' (j' + 1) lj') as [I2 I3]. split.
      - rewrite I1, I2, Ls', Lw, L1. reflexivity.
      - apply Forall_forall. intros y Hy. destruct (I3 y Hy) as [Hy'| ->].
        + rewrite Forall_forall in Fw. apply Fw, Hy'.
        + eapply lab_ok_add; [eapply py_get_ok; eassumption|exact Hl|right; exact Ep]. }
    destruct (i_text a); cbn [bind] in Er; [|discriminate].
    injection Er as <- <- _ _. exact Hv3. }
  destruct Hv2 as [L2 F2].
  destruct (e <=? s2); [injection H as <-; split; assumption|].
  assert (Hv4 : i2f_inv ml none_value Ls (subs2 ++ [py_slice text s2 e])
                  (labs2 ++ [if ml then Many [i_label a] else One (i_label a)])).
  { split; [rewrite !length_app, L2; reflexivity|].
    apply Forall_app; split; [exact F2|constructor; [apply new_label_ok, Hl|constructor]]. }
  destruct at2 as [t|]; [|injection H as <-; exact Hv4].
  destruct (negb iob && _); [discriminate|injection H as <-; exact Hv4].
Qed.

Lemma ann_loop_inv text tokens ml none_value sl iob Ls : forall l st st',
  (forall a, In a l -> In (i_label a) Ls) ->
  i2f_inv ml none_value Ls (subseqs st) (dlabels st) ->
  ann_loop text tokens ml none_value sl iob st l = Ok st' ->
  i2f_inv ml none_value Ls (subseqs st') (dlabels st').
Proof.
  induction l as [|a l IH]; intros st st' Hl Hv H; cbn [ann_loop] in H.
  - injection H as <-. exact Hv.
  - destruct (ann_step _ _ _ _ _ _ st a) as [st1|] eqn:E; cbn [bind] in H; [|discriminate].
    apply (IH st1 st'); [intros b Hb; apply Hl; right; exact Hb| |exact H].
    eapply ann_step_inv; [apply Hl; left; reflexivity|exact Hv|exact E].
Qed.

Lemma iob_expand_one_labels text none_value enc a b :
  In b (iob_expand_one text none_value enc a) ->
  i_label b = none_value \/ exists p, In p iob_tags /\ i_label b = p ++ i_label a.
Proof.
  unfold iob_expand_one. destruct (str_eqb (i_label a) none_value) eqn:E.
  - intros [<-|[]]. left. apply str_eqb_true, E.
  - intro H. right. apply in_app_or in H as [H|H]; [|apply in_app_or in H as [H|H]].
    + destruct H as [<-|[]]. exists (lit "B-"). split; [left; reflexivity|reflexivity].
    + destruct (1 <? _)%nat; [|destruct H]. destruct H as [<-|[]].
      exists (lit "E-"). split; [right; right; left; reflexivity|reflexivity].
    + destruct (2 <? _)%nat; [|destruct H]. destruct H as [<-|[]].
      exists (lit "I-"). split; [right; left; reflexivity|reflexivity].
Qed.

Lemma prepared_labels text none_value iob enc label_seq b :
  In b (prepared text none_value iob enc label_seq) ->
  In (i_label b) (none_value :: i2f_labels iob label_seq).
Proof.
  unfold prepared, i2f_labels. intro H.
  eapply Permutation_in in H; [|symmetry; apply sort_by_perm].
  destruct iob.
  - apply in_flat_map in H as [a [Ha Hb]].
    destruct (iob_expand_one_labels _ _ _ _ _ Hb) as [E|[p [Hp E]]]; [left; auto|right].
    apply in_flat_map. exists a. split; [exact Ha|]. rewrite E. apply (in_map (fun p => p ++ i_label a)), Hp.
  - right. apply in_map, H.
Qed.

Lemma lab_ok_drop_none ml none_value Ls x :
  lab_ok ml none_value (none_value :: Ls) x -> lab_ok ml none_value Ls x.
Proof.
  destruct x as [l|ls]; cbn [lab_ok]; intros [Hm H]; split; try exact Hm.
  - destruct H as [H|[H|H]]; auto.
  - eapply Forall_impl; [|exact H]. cbn beta. intros s [Hs|[Hs|Hs]]; auto.
Qed.

Lemma i2f_doc_inv text tokens ml none_value sl iob enc label_seq subs labs :
  indico_to_finetune_doc text tokens ml none_value sl iob enc label_seq = Ok (subs, labs) ->
  i2f_inv ml none_value (i2f_labels iob label_seq) subs labs.
Proof.
  unfold indico_to_finetune_doc. intro H.
  destruct (ann_loop _ _ _ _ _ _ _ _) as [st|] eqn:E; cbn [bind] in H; [|discriminate].
  assert (Hv : i2f_inv ml none_value (none_value :: i2f_labels iob label_seq) (subseqs st) (dlabels st)).
  { refine (ann_loop_inv _ _ _ _ _ _ _ _ _ _ _ _ E).
    - intros a Ha. eapply prepared_labels; exact Ha.
    - split; [reflexivity|constructor]. }
  destruct Hv as [L F].
  assert (Hv : i2f_inv ml none_value (none_value :: i2f_labels iob label_seq) subs labs).
  { destruct (negb _); injection H as <- <-; split.
    - rewrite !length_app, L. reflexivity.
    - apply Forall_app; split; [exact F|constructor; [apply filler_ok|constructor]].
    - exact L.
    - exact F. }
  destruct Hv as [L' F']. split; [exact L'|].
  eapply Forall_impl; [|exact F']. apply lab_ok_drop_none.
Qed.

(** X16: [indico_to_finetune_sequence] produces, for each document, as many
    labels as segments. *)
Theorem i2f_doc_same_length text tokens ml none_value sl iob enc label_seq subs labs :
  indico_to_finetune_doc text tokens ml none_value sl iob enc label_seq = Ok (subs, labs) ->
  List.length subs = List.length labs.
Proof. intro H. apply (i2f_doc_inv _ _ _ _ _ _ _ _ _ _ H). Qed.

(** X17: every segment label produced by [indico_to_finetune_sequence] is a
    string when [multi_label] is off and a list when it is on, and holds
    only [none_value] and input labels (with a [B-], [I-] or [E-] prefix
    under [iob]). *)
Theorem i2f_doc_label_values text tokens ml none_value sl iob enc label_seq subs labs :
  indico_to_finetune_doc text tokens ml none_value sl iob enc label_seq = Ok (subs, labs) ->
  Forall (fun x =>
    match x with
    | One l => ml = false /\ (l = none_value \/ In l (i2f_labels iob label_seq))
    | Many ls => ml = true /\ Forall (fun s => s = none_value \/ In s (i2f_labels iob label_seq)) ls
    end) labs.
Proof. intro H. apply (i2f_doc_inv _ _ _ _ _ _ _ _ _ _ H). Qed.

Lemma zmem_in (x : Z) (l : list Z) : zmem x l = true <-> In x l.
Proof.
  unfold zmem. rewrite existsb_exists. split.
  - intros [y [Hy E]]. apply Z.eqb_eq in E. subst. exact Hy.
  - intro H. exists x. split; [exact H|apply Z.eqb_refl].
Qed.

Lemma round_down_spec (tokens : list (Z * Z)) (s : Z) :
  0 <= s ->
  let v := round_down tokens (Z.to_nat s) s in
  0 <= v <= s /\ (v = 0 \/ zmem v (i_token_starts tokens) = true)
  /\ (forall w, v < w <= s -> zmem w (i_token_starts tokens) = false).
Proof.
  intro Hs. remember (Z.to_nat s) as fuel eqn:Hf. revert s Hs Hf.
  induction fuel as [|f IH]; intros s Hs Hf; cbn [round_down].
  - split; [lia|split; [left; lia|intros; lia]].
  - destruct ((0 <? s) && negb (zmem s (i_token_starts tokens))) eqn:E.
    + apply andb_true_iff in E as [E1 E2]. apply Z.ltb_lt in E1. apply negb_true_iff in E2.
      destruct (IH (s - 1)) as [H1 [H2 H3]]; [lia|lia|].
      split; [lia|split; [exact H2|]].
      intros w Hw. destruct (Z.eq_dec w s) as [->|Hne]; [exact E2|apply H3; lia].
    + split; [lia|split; [|intros; lia]].
      apply andb_false_iff in E as [E|E].
      * left. apply Z.ltb_ge in E. lia.
      * right. apply negb_false_iff in E. exact E.
Qed.

(** X14: without [subtoken_labels] and [iob], a non-filler annotation with
    [start >= 0] is widened to the nearest token boundaries: [start] moves
    down to the greatest position that is 0 or a token start, [end] moves
    up to the least position that ends a token or is past the text. *)
Theorem ann_bounds_rounding text tokens none_value a :
  i_label a <> none_value -> 0 <= i_start a ->
  let '(s, e) := ann_bounds text tokens none_value false false a in
  0 <= s <= i_start a
  /\ (s = 0 \/ In s (i_token_starts tokens))
  /\ (forall w, s < w <= i_start a -> ~ In w (i_token_starts tokens))
  /\ i_end a <= e
  /\ (py_len text <= e \/ In e (i_token_ends tokens))
  /\ (forall w, i_end a <= w < e -> w < py_len text /\ ~ In w (i_token_ends tokens)).
Proof.
  intros Hl Hs. unfold ann_bounds. rewrite (str_eqb_false _ _ Hl). cbn [negb andb].
  destruct (round_down_spec tokens (i_start a) Hs) as [D1 [D2 D3]].
  destruct (round_up_spec text tokens (i_end a)) as [U1 [U2 U3]].
  split; [exact D1|]. split.
  { destruct D2 as [D2|D2]; [left; exact D2|right; apply zmem_in, D2]. }
  split.
  { intros w Hw Hin. apply zmem_in in Hin. rewrite (D3 w Hw) in Hin. discriminate. }
  split; [exact U1|]. split.
  { unfold ends_at in U2. apply orb_true_iff in U2 as [U2|U2].
    - left. apply Z.leb_le, U2.
    - right. apply zmem_in, U2. }
  intros w Hw. specialize (U3 w Hw). unfold ends_at in U3.
  apply orb_false_iff in U3 as [V1 V2]. apply Z.leb_gt in V1. split; [exact V1|].
  intro Hin. apply zmem_in in Hin. rewrite Hin in V2. discriminate.
Qed.

(** X15: the IOB expansion keeps a filler annotation as it is; a non-filler
    annotation of one sub-token gets a single [B-] span over its whole
    range, and one of two sub-tokens a [B-] and an [E-] span and no [I-]. *)
Theorem iob_expand_one_short (text none_value : str) (enc : str -> list Z) (a : iann) :
  (i_label a = none_value -> iob_expand_one text none_value enc a = [a])
  /\ (forall cs,
        i_label a <> none_value ->
        (i_text a = None \/ i_text a = Some (py_slice text (i_start a) (i_end a))) ->
        0 <= i_start a <= i_end a -> i_end a <= py_len text ->
        enc (py_slice text (i_start a) (i_end a)) = cs ->
        let sub := py_slice text (i_start a) (i_end a) in
        (forall c, cs = [] \/ cs = [c] ->
           iob_expand_one text none_value enc a
           = [mk_iann (i_start a) (i_end a) (lit "B-" ++ i_label a) (Some sub)])
        /\ (forall c0 c1, cs = [c0; c1] ->
           iob_expand_one text none_value enc a
           = [mk_iann (i_start a) (i_start a + c0) (lit "B-" ++ i_label a) (Some (py_slice sub 0 c0));
              mk_iann (i_start a + c0) (i_end a) (lit "E-" ++ i_label a)
                      (Some (py_slice sub c0 (py_len sub)))])).
Proof.
  split.
  { intro H. unfold iob_expand_one. rewrite H, str_eqb_refl. reflexivity. }
  intros cs Hl Ht Hb He Henc sub.
  assert (Hsub : match i_text a with
                 | Some ((_ :: _) as t) => t
                 | _ => py_slice text (i_start a) (i_end a)
                 end = sub).
  { destruct Ht as [-> | ->]; [reflexivity|]. unfold sub. destruct (py_slice _ _ _); reflexivity. }
  assert (Hlen : py_len sub = i_end a - i_start a) by (apply py_slice_len; lia).
  assert (Hall : py_slice sub 0 (py_len sub) = sub) by apply py_slice_all.
  unfold iob_expand_one. rewrite (str_eqb_false _ _ Hl), Hsub. fold sub in Henc. rewrite Henc.
  split.
  - intros c [-> | ->];
      [replace (py_slice_to [] (-1)) with (@nil Z) by reflexivity
      |replace (py_slice_to [c] (-1)) with (@nil Z) by reflexivity];
      cbn -[py_slice py_len]; rewrite Hall, Hlen, Z.add_0_r;
      replace (i_start a + (i_end a - i_start a)) with (i_end a) by lia; reflexivity.
  - intros c0 c1 ->. replace (py_slice_to [c0; c1] (-1)) with [c0] by reflexivity.
    cbn -[py_slice py_len]. rewrite Hlen, Z.add_0_r.
    replace (i_start a + (i_end a - i_start a)) with (i_end a) by lia. reflexivity.
Qed.

(** ** The multi-document wrappers *)

Lemma i2f_doc_nolabels text tokens ml none_value sl iob enc :
  indico_to_finetune_doc text tokens ml none_value sl iob enc []
  = Ok (match text with [] => [] | _ => [text] end,
        match text with [] => [] | _ => [filler ml none_value] end).
Proof.
  unfold indico_to_finetune_doc, prepared. destruct iob; cbn [flat_map sort_by ann_loop bind last_loc].
  all: destruct text as [|c t]; [reflexivity|].
  all: replace (0 =? py_len (c :: t)) with false
         by (symmetry; apply Z.eqb_neq; unfold py_len; simpl; lia).
  all: cbn [negb subseqs dlabels app]; unfold py_slice_from; rewrite py_slice_all; reflexivity.
Qed.

(** X18: with [labels = None], [indico_to_finetune_sequence] turns each
    non-empty text into one segment with the filler label, and each empty
    text into no segment. *)
Theorem i2f_seq_no_labels nlp enc texts ml none_value sl iob :
  indico_to_finetune_sequence nlp enc texts None ml none_value sl iob
  = Ok (map (fun t => match t with [] => [] | _ => [t] end) texts,
        map (fun t => match t with [] => [] | _ => [filler ml none_value] end) texts).
Proof.
  unfold indico_to_finetune_sequence.
  induction texts as [|t texts IH]; [reflexivity|].
  cbn [List.length repeat combine i2f_docs]. rewrite i2f_doc_nolabels. cbn [bind].
  rewrite IH. cbn [bind map]. reflexivity.
Qed.

(** X19: [indico_to_finetune_sequence] returns one segment list and one
    label list per document of [zip(texts, labels)], of equal lengths. *)
Theorem i2f_seq_shape nlp enc texts labels ml none_value sl iob all_subseqs all_labels :
  indico_to_finetune_sequence nlp enc texts labels ml none_value sl iob = Ok (all_subseqs, all_labels) ->
  List.length all_subseqs = Nat.min (List.length texts)
                              (match labels with None => List.length texts | Some l => List.length l end)
  /\ List.length all_labels = List.length all_subseqs
  /\ Forall2 (fun s l => List.length s = List.length l) all_subseqs all_labels.
Proof.
  unfold indico_to_finetune_sequence.
  assert (Hl : List.length (combine texts (match labels with None => repeat [] (List.length texts) | Some l => l end))
               = Nat.min (List.length texts)
                   (match labels with None => List.length texts | Some l => List.length l end)).
  { rewrite length_combine. destruct labels; [reflexivity|]. rewrite repeat_length. reflexivity. }
  rewrite <- Hl. generalize (combine texts (match labels with None => repeat [] (List.length texts) | Some l => l end)).
  intro docs. revert all_subseqs all_labels.
  induction docs as [|[t ls] docs IH]; intros S L H; cbn [i2f_docs] in H.
  - injection H as <- <-. split; [reflexivity|split; [reflexivity|constructor]].
  - destruct (indico_to_finetune_doc _ _ _ _ _ _ _ _) as [[s l]|] eqn:E1; cbn [bind] in H; [|discriminate].
    destruct (i2f_docs _ _ _ _ _ _ docs) as [[S' L']|] eqn:E2; cbn [bind] in H; [|discriminate].
    injection H as <- <-. destruct (IH S' L' eq_refl) as [H1 [H2 H3]].
    destruct (i2f_doc_inv _ _ _ _ _ _ _ _ _ _ E1) as [H4 _].
    cbn [List.length]. split; [congruence|split; [congruence|constructor; assumption]].
Qed.

(** X13: [finetune_to_indico_sequence] returns [raw_texts] unchanged and one
    annotation list per document of [zip(raw_texts, subseqs, labels)]. *)
Theorem f2i_seq_shape nlp raw_texts subseqs labels none_value sp iob rt annotations :
  finetune_to_indico_sequence nlp raw_texts subseqs labels none_value sp iob = Ok (rt, annotations) ->
  rt = raw_texts
  /\ List.length annotations
     = Nat.min (Nat.min (List.length raw_texts) (List.length subseqs)) (List.length labels).
Proof.
  unfold finetune_to_indico_sequence. intro H.
  destruct (f2i_docs _ _ _ _ _) as [A|] eqn:E; cbn [bind] in H; [|discriminate].
  injection H as <- <-. split; [reflexivity|].
  rewrite <- length_combine, <- length_combine.
  revert A E. generalize (combine (combine raw_texts subseqs) labels). intro docs.
  induction docs as [|[[r d] l] docs IH]; intros A E; cbn [f2i_docs] in E.
  - injection E as <-. reflexivity.
  - destruct (finetune_to_indico_doc _ _ _ _ _ _ _) as [[x w]|]; cbn [bind] in E; [|discriminate].
    destruct (f2i_docs _ _ _ _ docs) as [A'|] eqn:E2; cbn [bind] in E; [|discriminate].
    injection E as <-. cbn [List.length]. rewrite (IH A' eq_refl). reflexivity.
Qed.

(** ** Witnesses of the properties *)

Lemma truncate_text_spec_witness :
  0 <= 5 /\
  ((py_len (lit "hello world") <= 5 -> truncate_text (lit "hello world") 5 = lit "hello world")
   /\ (5 < py_len (lit "hello world") ->
       truncate_text (lit "hello world") 5 = firstn (Z.to_nat 5) (lit "hello world") ++ lit "..."
       /\ py_len (truncate_text (lit "hello world") 5) = 5 + 3)).
Proof. split; [lia|]. apply (truncate_text_spec (lit "hello world") 5). lia. Defined.

Lemma list_transpose_entries_witness :
  (mat23 <> [] /\ (forall r, In r mat23 -> (3 <= List.length r)%nat)
   /\ exists r, In r mat23 /\ List.length r = 3%nat)
  /\ List.length (list_transpose mat23) = 3%nat
  /\ (forall i, (i < 3)%nat -> exists col, nth_error (list_transpose mat23) i = Some col
                                /\ List.length col = List.length mat23)
  /\ (forall i j, (i < 3)%nat -> entry (list_transpose mat23) i j = entry mat23 j i).
Proof.
  assert (H1 : mat23 <> []) by discriminate.
  assert (H2 : forall r, In r mat23 -> (3 <= List.length r)%nat)
    by (intros r [<-|[<-|[]]]; simpl; lia).
  assert (H3 : exists r, In r mat23 /\ List.length r = 3%nat)
    by (exists [1; 2; 3]; split; [left; reflexivity|reflexivity]).
  split; [split; [exact H1|split; [exact H2|exact H3]]|].
  apply (list_transpose_entries mat23 3 H1 H2 H3).
Defined.

Lemma list_transpose_involutive_witness :
  (mat23 <> [] /\ (1 <= 3)%nat /\ (forall r, In r mat23 -> List.length r = 3%nat))
  /\ list_transpose (list_transpose mat23) = mat23.
Proof.
  assert (H3 : forall r, In r mat23 -> List.length r = 3%nat) by (intros r [<-|[<-|[]]]; reflexivity).
  split; [split; [discriminate|split; [lia|exact H3]]|].
  apply (list_transpose_involutive mat23 3); [discriminate|lia|exact H3].
Defined.

Lemma iob_precedes_join_cases_witness :
  iob_precedes (Some (lit "B-PER")) (lit "I-PER") PAD = Ok (Some (true, lit "IE-PER"))
  /\ ((Some (lit "B-PER") = Some (lit "I-PER") /\ lit "I-PER" = PAD /\ lit "IE-PER" = PAD)
      \/ exists l ll rl base, Some (lit "B-PER") = Some l /\ split_dash l = Some (ll, base)
                              /\ split_dash (lit "I-PER") = Some (rl, base)
                              /\ (lit "IE-PER" = lit "IE-" ++ base \/ lit "IE-PER" = base)).
Proof.
  assert (H : iob_precedes (Some (lit "B-PER")) (lit "I-PER") PAD = Ok (Some (true, lit "IE-PER")))
    by reflexivity.
  split; [exact H|]. exact (iob_precedes_join_cases _ _ _ _ H).
Defined.

Lemma fox_run : finetune_to_indico_doc fox fox_tokens PAD false false fox_segs fox_labels = Ok (fox_out, []).
Proof. vm_compute. reflexivity. Qed.

Lemma f2i_doc_sorted_text_witness :
  finetune_to_indico_doc fox fox_tokens PAD false false fox_segs fox_labels = Ok (fox_out, [])
  /\ StronglySorted (fun a b => a_start a <= a_start b) fox_out
  /\ Forall (fun a => a_text a = py_slice fox (a_start a) (a_end a)) fox_out.
Proof. split; [vm_compute; reflexivity|]. apply (f2i_doc_sorted_text _ _ _ _ _ _ _ _ _ fox_run). Defined.

Lemma f2i_doc_labels_witness :
  finetune_to_indico_doc fox fox_tokens PAD false false fox_segs fox_labels = Ok (fox_out, [])
  /\ NoDup (map triple fox_out)
  /\ Forall (fun a => a_label a <> PAD /\ In (a_label a) (labels_of fox_labels)) fox_out.
Proof. split; [vm_compute; reflexivity|]. apply (f2i_doc_labels _ _ _ _ _ _ _ _ fox_run). Defined.

Lemma f2i_doc_token_bounds_witness :
  finetune_to_indico_doc fox fox_tokens PAD false false fox_segs fox_labels = Ok (fox_out, [])
  /\ Forall (fun a => In (a_start a) (token_starts fox_tokens) /\ In (a_end a) (token_ends fox_tokens)) fox_out.
Proof. split; [vm_compute; reflexivity|]. apply (f2i_doc_token_bounds _ _ _ _ _ _ _ fox_run). Defined.

Lemma abcd_run :
  indico_to_finetune_doc abcd abcd_tokens true PAD false false no_encoder abcd_anns
  = Ok ([lit "ab"; lit " "; lit "cd"], [Many [X]; Many [PAD]; Many [Y]]).
Proof. vm_compute. reflexivity. Qed.

Lemma i2f_doc_same_length_witness :
  indico_to_finetune_doc abcd abcd_tokens true PAD false false no_encoder abcd_anns
  = Ok ([lit "ab"; lit " "; lit "cd"], [Many [X]; Many [PAD]; Many [Y]])
  /\ List.length [lit "ab"; lit " "; lit "cd"] = List.length [Many [X]; Many [PAD]; Many [Y]].
Proof. split; [vm_compute; reflexivity|]. apply (i2f_doc_same_length _ _ _ _ _ _ _ _ _ _ abcd_run). Defined.

Lemma i2f_doc_label_values_witness :
  indico_to_finetune_doc abcd abcd_tokens true PAD false false no_encoder abcd_anns
  = Ok ([lit "ab"; lit " "; lit "cd"], [Many [X]; Many [PAD]; Many [Y]])
  /\ Forall (fun x =>
       match x with
       | One l => true = false /\ (l = PAD \/ In l (i2f_labels false abcd_anns))
       | Many ls => true = true /\ Forall (fun s => s = PAD \/ In s (i2f_labels false abcd_anns)) ls
       end) [Many [X]; Many [PAD]; Many [Y]].
Proof. split; [vm_compute; reflexivity|]. apply (i2f_doc_label_values _ _ _ _ _ _ _ _ _ _ abcd_run). Defined.

Lemma ann_bounds_rounding_witness :
  (i_label (mk_iann 1 4 X None) <> PAD /\ 0 <= i_start (mk_iann 1 4 X None))
  /\ ann_bounds abcd abcd_tokens PAD false false (mk_iann 1 4 X None) = (0, 5)
  /\ (let '(s, e) := ann_bounds abcd abcd_tokens PAD false false (mk_iann 1 4 X None) in
      0 <= s <= 1
      /\ (s = 0 \/ In s (i_token_starts abcd_tokens))
      /\ (forall w, s < w <= 1 -> ~ In w (i_token_starts abcd_tokens))
      /\ 4 <= e
      /\ (py_len abcd <= e \/ In e (i_token_ends abcd_tokens))
      /\ (forall w, 4 <= w < e -> w < py_len abcd /\ ~ In w (i_token_ends abcd_tokens))).
Proof.
  split; [split; [discriminate|cbn; lia]|]. split; [vm_compute; reflexivity|].
  apply (ann_bounds_rounding abcd abcd_tokens PAD (mk_iann 1 4 X None)); [discriminate|cbn; lia].
Defined.

Lemma iob_expand_one_short_witness :
  (i_label per6 <> PAD /\ 0 <= i_start per6 <= i_end per6 /\ i_end per6 <= py_len (lit "abcdef"))
  /\ iob_expand_one (lit "abcdef") PAD (fun _ => [2; 6]) per6
     = [mk_iann 0 (0 + 2) (lit "B-" ++ lit "PER") (Some (py_slice (py_slice (lit "abcdef") 0 6) 0 2));
        mk_iann (0 + 2) 6 (lit "E-" ++ lit "PER")
          (Some (py_slice (py_slice (lit "abcdef") 0 6) 2 (py_len (py_slice (lit "abcdef") 0 6))))].
Proof.
  split; [split; [discriminate|split; cbn; lia]|].
  destruct (iob_expand_one_short (lit "abcdef") PAD (fun _ => [2; 6]) per6) as [_ H].
  destruct (H [2; 6]) as [_ H2]; [discriminate|left; reflexivity|cbn; lia|cbn; lia|reflexivity|].
  apply (H2 2 6). reflexivity.
Defined.

Lemma i2f_seq_shape_witness :
  indico_to_finetune_sequence (fun _ => []) no_encoder [lit "ab"; lit "cd"]
    (Some [[mk_iann 0 1 X None]]) false PAD true false
  = Ok ([[lit "a"; lit "b"]], [[One X; One PAD]])
  /\ List.length [[lit "a"; lit "b"]] = Nat.min 2 1
  /\ List.length [[One X; One PAD]] = List.length [[lit "a"; lit "b"]]
  /\ Forall2 (fun s l => List.length s = List.length l) [[lit "a"; lit "b"]] [[One X; One PAD]].
Proof.
  assert (H : indico_to_finetune_sequence (fun _ => []) no_encoder [lit "ab"; lit "cd"]
                (Some [[mk_iann 0 1 X None]]) false PAD true false
              = Ok ([[lit "a"; lit "b"]], [[One X; One PAD]])) by (vm_compute; reflexivity).
  split; [exact H|]. exact (i2f_seq_shape _ _ _ _ _ _ _ _ _ _ H).
Defined.

Lemma f2i_seq_shape_witness :
  finetune_to_indico_sequence (fun _ => []) [lit "ab"; lit "cd"] [[lit "ab"]] [[Single X]; []] PAD true false
  = Ok ([lit "ab"; lit "cd"], [[mk_ann 0 2 X (lit "ab")]])
  /\ [lit "ab"; lit "cd"] = [lit "ab"; lit "cd"]
  /\ List.length [[mk_ann 0 2 X (lit "ab")]] = Nat.min (Nat.min 2 1) 2.
Proof.
  assert (H : finetune_to_indico_sequence (fun _ => []) [lit "ab"; lit "cd"] [[lit "ab"]] [[Single X]; []]
                PAD true false = Ok ([lit "ab"; lit "cd"], [[mk_ann 0 2 X (lit "ab")]]))
    by (vm_compute; reflexivity).
  split; [exact H|]. exact (f2i_seq_shape _ _ _ _ _ _ _ _ _ H).
Defined.
